(** * SmartPark: the allocation engine of [app.js]

    A shallow embedding of the reservation engine of the SmartPark parking
    lot page ([src/app.js]): the three module-level collections
    [parkingSlots], [arrayList] and [queue], and the operations
    [insertReservation], [deleteReservation], [sortBySlot] and [search]
    that act on them.

    The DOM rendering ([renderGrid], [renderArrayList], [renderQueue],
    [updateCounters]), the dialogs ([alert], [confirm]) and the
    [localStorage] snapshot ([saveState]) are output only: none of them
    writes one of the three collections, so they are left out.  The clock
    and the random source ([nowString], [Date.now], [Math.random]) are
    inputs, passed to each operation as an [Env]. *)

From Stdlib Require Import ZArith String Ascii List Bool Lia DecimalString Sorted.
From Stdlib Require Import DecimalPos Permutation.
From stdpp Require Import base decidable countable strings gmap list sorting.

Local Open Scope string_scope.
Local Open Scope list_scope.
Local Open Scope Z_scope.

(** ** JavaScript strings and numbers

    A string is a sequence of code units; the model keeps the code units
    below 256 (Latin-1), on which [trim], [toLowerCase] and [includes] are
    written out exactly as ECMAScript defines them. *)

Module Js.

(** WhiteSpace and LineTerminator code units below 256: TAB, LF, VT, FF, CR,
    SP and NBSP. *)
Definition isWhiteSpace (c : ascii) : bool :=
  let n := N_of_ascii c in
  ((9 <=? n) && (n <=? 13) || (n =? 32) || (n =? 160))%N.

Fixpoint trimStart (s : string) : string :=
  match s with
  | EmptyString => EmptyString
  | String c s' => if isWhiteSpace c then trimStart s' else s
  end.

Fixpoint trimEnd (s : string) : string :=
  match s with
  | EmptyString => EmptyString
  | String c s' =>
      match trimEnd s' with
      | EmptyString => if isWhiteSpace c then EmptyString else String c EmptyString
      | t => String c t
      end
  end.

(** [String.prototype.trim] *)
Definition trim (s : string) : string := trimEnd (trimStart s).

(** Lower-case mapping of one code unit: A-Z, and the Latin-1 capitals
    U+00C0..U+00DE except the multiplication sign U+00D7. *)
Definition lowerChar (c : ascii) : ascii :=
  let n := N_of_ascii c in
  if ((65 <=? n) && (n <=? 90) || (192 <=? n) && (n <=? 222) && negb (n =? 215))%N
  then ascii_of_N (n + 32) else c.

(** [String.prototype.toLowerCase] *)
Fixpoint toLowerCase (s : string) : string :=
  match s with
  | EmptyString => EmptyString
  | String c s' => String (lowerChar c) (toLowerCase s')
  end.

(** [s] begins with [t]. *)
Fixpoint startsWith (s t : string) : bool :=
  match t, s with
  | EmptyString, _ => true
  | String b t', String a s' => if Ascii.eqb a b then startsWith s' t' else false
  | String _ _, EmptyString => false
  end.

(** [String.prototype.includes]: [t] occurs in [s] at some position. *)
Fixpoint includes (s t : string) : bool :=
  startsWith s t ||
  match s with
  | EmptyString => false
  | String _ s' => includes s' t
  end.

(** A number is an integer or NaN.  The engine only computes with slot
    numbers and indices ([x - 1], [x + 1], comparisons with [0], [-1] and
    [TOTAL_SLOTS], decimal rendering); on the integers a double holds
    exactly (below 2^53 in magnitude) these are the operations on [Z] below,
    and the slot numbers the engine itself creates lie in
    [1..TOTAL_SLOTS]. *)
Inductive number : Set :=
  | Num (z : Z)
  | NaN.

Definition sub (a b : number) : number :=
  match a, b with
  | Num x, Num y => Num (x - y)
  | _, _ => NaN
  end.

Definition add (a b : number) : number :=
  match a, b with
  | Num x, Num y => Num (x + y)
  | _, _ => NaN
  end.

(** [a < b], [a >= b], [a > b] and [a === b]: every comparison with NaN is
    false. *)
Definition lt (a b : number) : bool :=
  match a, b with Num x, Num y => x <? y | _, _ => false end.

Definition ge (a b : number) : bool :=
  match a, b with Num x, Num y => y <=? x | _, _ => false end.

Definition gt (a b : number) : bool :=
  match a, b with Num x, Num y => y <? x | _, _ => false end.

Definition strictEq (a b : number) : bool :=
  match a, b with Num x, Num y => x =? y | _, _ => false end.

(** [String(n)] *)
Definition toString (n : number) : string :=
  match n with
  | Num z => NilZero.string_of_int (Z.to_int z)
  | NaN => "NaN"
  end.

Definition digitValue (c : ascii) : option Z :=
  let n := Z.of_N (N_of_ascii c) in
  if (48 <=? n) && (n <=? 57) then Some (n - 48) else None.

(** Value of the longest prefix of decimal digits. *)
Fixpoint digitsValue (acc : Z) (s : string) : Z :=
  match s with
  | EmptyString => acc
  | String c s' =>
      match digitValue c with
      | Some d => digitsValue (10 * acc + d) s'
      | None => acc
      end
  end.

(** [parseInt(s, 10)]: leading white space is skipped, one sign is read,
    then the longest run of decimal digits; NaN when there is no digit. *)
Definition parseInt (s : string) : number :=
  let s1 := trimStart s in
  let '(sign, s2) :=
    match s1 with
    | String "-" r => (-1, r)
    | String "+" r => (1, r)
    | _ => (1, s1)
    end in
  match s2 with
  | EmptyString => NaN
  | String c _ =>
      match digitValue c with
      | Some _ => Num (sign * digitsValue 0 s2)
      | None => NaN
      end
  end.

End Js.


Global Instance number_eq_dec : EqDecision Js.number.
Proof. solve_decision. Defined.

Global Instance number_countable : Countable Js.number.
Proof.
  apply (inj_countable'
           (fun n => match n with Js.Num z => Some z | Js.NaN => None end)
           (fun o => match o with Some z => Js.Num z | None => Js.NaN end)).
  intros []; reflexivity.
Defined.

(** ** Data model *)

(** Total parking capacity. *)
Definition TOTAL_SLOTS : Z := 20.

(** The object [{plate, time, id}]: the occupant stored in a cell of
    [parkingSlots], and also an entry of [queue]. *)
Record Occupant : Set := mkOccupant {
  o_plate : string;
  o_time : string;
  o_id : string
}.

(** The object [{plate, slot, time, id}] stored in [arrayList]. *)
Record Reservation : Set := mkReservation {
  r_plate : string;
  r_slot : Js.number;
  r_time : string;
  r_id : string
}.

Global Instance Occupant_eq_dec : EqDecision Occupant.
Proof. solve_decision. Defined.

Global Instance Reservation_eq_dec : EqDecision Reservation.
Proof. solve_decision. Defined.

(** [parkingSlots] is a JavaScript Array: an object with a [length] and
    properties.  A number used as a subscript names the property whose key
    is its rendering, so the properties are keyed by [Js.number] (the key
    of [Js.NaN] is the property "NaN").  A property holds [null] ([None])
    or an occupant; a key without a property reads as [undefined]. *)
Record SlotArray : Type := mkSlotArray {
  arr_length : Z;
  arr_props : gmap Js.number (option Occupant)
}.

(** [a[k]]: [None] is [undefined], [Some None] is [null]. *)
Definition arrayGet (a : SlotArray) (k : Js.number) : option (option Occupant) :=
  arr_props a !! k.

(** An array index is an integer in [0, 2^32 - 1). *)
Definition isArrayIndex (k : Js.number) : bool :=
  match k with
  | Js.Num z => (0 <=? z) && (z <? 2 ^ 32 - 1)
  | Js.NaN => false
  end.

(** [a[k] = v]: the property is written; writing at an array index at or
    beyond [length] grows the array (the cells in between stay unset), and
    any other key (a negative number, NaN) is an ordinary property. *)
Definition arraySet (a : SlotArray) (k : Js.number) (v : option Occupant) : SlotArray :=
  {| arr_length :=
       match k with
       | Js.Num z => if isArrayIndex k && (arr_length a <=? z) then z + 1 else arr_length a
       | Js.NaN => arr_length a
       end;
     arr_props := <[k := v]> (arr_props a) |}.

(** The value is truthy: an object, neither [null] nor [undefined]. *)
Definition truthy (v : option (option Occupant)) : bool :=
  match v with
  | Some (Some _) => true
  | _ => false
  end.

(** The value [=== null]. *)
Definition isNull (v : option (option Occupant)) : bool :=
  match v with
  | Some None => true
  | _ => false
  end.

(** The scan of [findIndex(s => s === null)] from index [i], over [n] more
    cells; [-1] when none is [null]. *)
Fixpoint findNullFrom (a : SlotArray) (i : Z) (n : nat) : Js.number :=
  match n with
  | O => Js.Num (-1)
  | S n' => if isNull (arrayGet a (Js.Num i)) then Js.Num i else findNullFrom a (i + 1) n'
  end.

(** [a.findIndex(s => s === null)] *)
Definition findIndexNull (a : SlotArray) : Js.number :=
  findNullFrom a 0 (Z.to_nat (arr_length a)).

(** [new Array(n).fill(null)] *)
Definition newArrayFillNull (n : Z) : SlotArray :=
  {| arr_length := n;
     arr_props := foldr (fun i m => <[Js.Num i := None]> m) ∅ (seqZ 0 n) |}.

(** The three collections. *)
Record State : Type := mkState {
  parkingSlots : SlotArray;
  arrayList : list Reservation;
  queue : list Occupant
}.

(** The state the script starts from when [localStorage] holds nothing. *)
Definition initialState : State :=
  {| parkingSlots := newArrayFillNull TOTAL_SLOTS; arrayList := []; queue := [] |}.

(** What one call reads from the clock and the random source:
    [new Date().toLocaleString()], [Date.now()] and
    [Math.floor(Math.random()*999)]. *)
Record Env : Set := mkEnv {
  nowString : string;
  Date_now : Z;
  random999 : Z
}.

(** ['id'+Date.now()+Math.floor(Math.random()*999)] *)
Definition mintId (e : Env) : string :=
  ("id" ++ Js.toString (Js.Num (Date_now e)) ++ Js.toString (Js.Num (random999 e)))%string.

(** ** Operations *)

(** How a call of [insertReservation] ends; the dialog each one shows is
    given on the right. *)
Inductive InsertOutcome : Set :=
  | ValidationError      (* alert: Please enter a plate number *)
  | DuplicateError       (* alert: Plate already in system (either reserved or queued) *)
  | Queued               (* alert: Parking is full! ... added to the waiting queue. *)
  | InvalidSlotError     (* alert: Invalid slot chosen *)
  | SlotOccupiedError    (* alert: Chosen slot is occupied *)
  | QueuedNoSlot         (* no dialog: slotIndex === -1 *)
  | Reserved (slot : Js.number) (id time : string). (* confirm: Reservation successful! *)

(** The predicate [r => r.plate.toLowerCase() === plate.toLowerCase()] *)
Definition samePlate (plate other : string) : bool :=
  String.eqb (Js.toLowerCase other) (Js.toLowerCase plate).

Definition found {A} (o : option A) : bool :=
  match o with Some _ => true | None => false end.

(** The slot resolution of [insertReservation]: the index to use, or the
    error that ends the call. *)
Definition resolveSlot (s : State) (chosenSlot : string) : InsertOutcome + Js.number :=
  if String.eqb chosenSlot "auto" then
    inr (findIndexNull (parkingSlots s))
  else
    let si := Js.sub (Js.parseInt chosenSlot) (Js.Num 1) in
    if Js.lt si (Js.Num 0) || Js.ge si (Js.Num TOTAL_SLOTS) then inl InvalidSlotError
    else if truthy (arrayGet (parkingSlots s) si) then inl SlotOccupiedError
    else inr si.

(** [insertReservation(plate, chosenSlot)] *)
Definition insertReservation (e : Env) (plate chosenSlot : string) (s : State)
  : InsertOutcome * State :=
  if String.eqb plate "" || String.eqb (Js.trim plate) "" then (ValidationError, s)
  else
    let plate := Js.trim plate in
    if found (find (fun r => samePlate plate (r_plate r)) (arrayList s))
       || found (find (fun r => samePlate plate (o_plate r)) (queue s))
    then (DuplicateError, s)
    else
      let time := nowString e in
      let id := mintId e in
      if TOTAL_SLOTS <=? Z.of_nat (length (arrayList s)) then
        (Queued,
         {| parkingSlots := parkingSlots s;
            arrayList := arrayList s;
            queue := queue s ++ [mkOccupant plate time id] |})
      else
        match resolveSlot s chosenSlot with
        | inl err => (err, s)
        | inr slotIndex =>
            if Js.strictEq slotIndex (Js.Num (-1)) then
              (QueuedNoSlot,
               {| parkingSlots := parkingSlots s;
                  arrayList := arrayList s;
                  queue := queue s ++ [mkOccupant plate time id] |})
            else
              let reservation :=
                mkReservation plate (Js.add slotIndex (Js.Num 1)) time id in
              (Reserved (r_slot reservation) id time,
               {| parkingSlots :=
                    arraySet (parkingSlots s) slotIndex (Some (mkOccupant plate time id));
                  arrayList := arrayList s ++ [reservation];
                  queue := queue s |})
        end.

(** How a call of [deleteReservation] ends: the id was not found, or the
    reservation was removed and, when the queue was not empty, its head was
    given the slot (the dialog "FIFO Queue: plate automatically assigned to
    slot n"). *)
Inductive DeleteOutcome : Set :=
  | NotFound
  | Deleted (promoted : option (string * Js.number)).

(** [deleteReservation(id)].  [list_find] gives [findIndex]'s index together
    with [arrayList[idx]]; [None] is the index [-1]. *)
Definition deleteReservation (e : Env) (id : string) (s : State)
  : DeleteOutcome * State :=
  match list_find (fun r => r_id r = id) (arrayList s) with
  | None => (NotFound, s)
  | Some (idx, r) =>
      let slotNum := r_slot r in
      let arrayList1 := delete idx (arrayList s) in
      let cell := Js.sub slotNum (Js.Num 1) in
      let parkingSlots1 := arraySet (parkingSlots s) cell None in
      match queue s with
      | [] =>
          (Deleted None,
           {| parkingSlots := parkingSlots1; arrayList := arrayList1; queue := queue s |})
      | next :: rest =>
          let time := nowString e in
          let nid := mintId e in
          (Deleted (Some (o_plate next, slotNum)),
           {| parkingSlots :=
                arraySet parkingSlots1 cell (Some (mkOccupant (o_plate next) time nid));
              arrayList := arrayList1 ++ [mkReservation (o_plate next) slotNum time nid];
              queue := rest |})
      end
  end.

(** [Array.prototype.sort(cmp)].  The sort is stable, and [x] is moved
    behind [y] only when [cmp(x, y) > 0]; a comparison that yields NaN
    counts as [0].  For a comparator that is a consistent ordering of the
    elements the language fixes the result, the stable sorted arrangement,
    which the insertion sort below computes.  (A comparator that yields NaN
    is not one; the engine of the browser then decides the order.) *)
Fixpoint sortInsert {A} (cmp : A -> A -> Js.number) (x : A) (l : list A) : list A :=
  match l with
  | [] => [x]
  | y :: l' =>
      if Js.gt (cmp x y) (Js.Num 0) then y :: sortInsert cmp x l' else x :: l
  end.

Definition arraySort {A} (cmp : A -> A -> Js.number) (l : list A) : list A :=
  foldr (sortInsert cmp) [] l.

(** The comparator [(a,b) => a.slot - b.slot] *)
Definition bySlot (a b : Reservation) : Js.number := Js.sub (r_slot a) (r_slot b).

(** [sortBySlot()] *)
Definition sortBySlot (s : State) : State :=
  {| parkingSlots := parkingSlots s;
     arrayList := arraySort bySlot (arrayList s);
     queue := queue s |}.

(** What [search] leaves in the result panel: nothing, the "No
    reservations found" card, or the rows of the matches. *)
Inductive SearchOutcome : Set :=
  | Cleared
  | NoneFound
  | Found (results : list Reservation).

(** The test of the scan:
    [r.plate.toLowerCase().includes(term.toLowerCase()) || String(r.slot)===term] *)
Definition matches (term : string) (r : Reservation) : bool :=
  Js.includes (Js.toLowerCase (r_plate r)) (Js.toLowerCase term)
  || String.eqb (Js.toString (r_slot r)) term.

(** [search(term)]: the [forEach] loop pushes each match onto [results]. *)
Definition search (term : string) (s : State) : SearchOutcome :=
  let term := Js.trim term in
  if String.eqb term "" then Cleared
  else if Nat.eqb (length (arrayList s)) 0 then NoneFound
  else
    let results :=
      fold_left (fun results r => if matches term r then results ++ [r] else results)
                (arrayList s) [] in
    if Nat.eqb (length results) 0 then NoneFound else Found results.

(** The records a search shows. *)
Definition resultSet (o : SearchOutcome) : list Reservation :=
  match o with
  | Found results => results
  | _ => []
  end.

(** ** Runs of the engine *)

Inductive Op : Set :=
  | Insert (e : Env) (plate chosenSlot : string)
  | Delete (e : Env) (id : string).

Definition step (s : State) (op : Op) : State :=
  match op with
  | Insert e plate chosenSlot => snd (insertReservation e plate chosenSlot s)
  | Delete e id => snd (deleteReservation e id s)
  end.

Definition run (ops : list Op) (s : State) : State := fold_left step ops s.


(** ** Words of the specification *)

(** The plate, compared case-insensitively, is the plate of a record of
    [arrayList] or of [queue]. *)
Definition plateInSystem (plate : string) (s : State) : Prop :=
  Exists (fun r => Js.toLowerCase (r_plate r) = Js.toLowerCase plate) (arrayList s)
  \/ Exists (fun q => Js.toLowerCase (o_plate q) = Js.toLowerCase plate) (queue s).

Global Instance plateInSystem_dec plate s : Decision (plateInSystem plate s).
Proof. unfold plateInSystem. apply _. Defined.

(** A valid plate: not empty once trimmed. *)
Definition validPlate (plate : string) : Prop := Js.trim plate <> "".

Global Instance validPlate_dec plate : Decision (validPlate plate).
Proof. unfold validPlate. apply _. Defined.

(** The SlotTable cell of index [i]. *)
Definition cell (s : State) (i : Z) : option (option Occupant) :=
  arrayGet (parkingSlots s) (Js.Num i).

(** An empty cell holds [null], as [new Array(TOTAL_SLOTS).fill(null)]
    leaves it and as [deleteReservation] resets it; an occupied cell holds
    an occupant. *)
Definition cellEmpty (s : State) (i : Z) : Prop := cell s i = Some None.

Definition cellOccupied (s : State) (i : Z) : Prop :=
  exists c, cell s i = Some (Some c).

(** One reservation's slot number is at most the other's. *)
Definition slotLe (a b : Reservation) : Prop :=
  match r_slot a, r_slot b with
  | Js.Num x, Js.Num y => x <= y
  | _, _ => False
  end.

(** Every reservation of the list carries a slot number (none carries NaN). *)
Definition numericSlots (l : list Reservation) : Prop :=
  Forall (fun r => r_slot r <> Js.NaN) l.

(** The slot numbers read off the list in order never decrease. *)
Definition nonDecreasing (l : list Reservation) : Prop := StronglySorted slotLe l.

(** The records of the list that carry the slot [k], in the order of the
    list. *)
Definition withSlot (k : Js.number) (l : list Reservation) : list Reservation :=
  filter (fun r => r_slot r = k) l.

(** [t] occurs in [s] as a substring. *)
Definition isSubstring (t s : string) : Prop :=
  exists pre post, s = (pre ++ t ++ post)%string.

(** The record matches the term: its plate contains the term, letter case
    set aside, or its slot number is written exactly as the term. *)
Definition matchesTerm (term : string) (r : Reservation) : Prop :=
  isSubstring (Js.toLowerCase term) (Js.toLowerCase (r_plate r))
  \/ Js.toString (r_slot r) = term.

(** The occupant reference that mirrors a reservation. *)
Definition occupantOf (r : Reservation) : Occupant :=
  mkOccupant (r_plate r) (r_time r) (r_id r).

(** The reservation [deleteReservation] removes: the first one of
    [arrayList] that carries the id. *)
Definition firstWithId (id : string) (s : State) (idx : nat) (r : Reservation) : Prop :=
  arrayList s !! idx = Some r /\ r_id r = id
  /\ forall j r', arrayList s !! j = Some r' -> (j < idx)%nat -> r_id r' <> id.

(** The invariant of the data model, in its words: every occupied cell [i]
    of the SlotTable has exactly one reservation with slot [i + 1] and its
    plate, time and id, and every reservation has exactly one such cell. *)
Definition bijection (s : State) : Prop :=
  (forall i c, 0 <= i < TOTAL_SLOTS -> cell s i = Some (Some c) ->
     exists! k : nat, exists r,
       arrayList s !! k = Some r /\ r_slot r = Js.Num (i + 1) /\ c = occupantOf r)
  /\ (forall (k : nat) r, arrayList s !! k = Some r ->
     exists! i : Z,
       0 <= i < TOTAL_SLOTS /\ r_slot r = Js.Num (i + 1)
       /\ cell s i = Some (Some (occupantOf r))).

Definition consistent (s : State) : Prop :=
  Z.of_nat (length (arrayList s)) <= TOTAL_SLOTS /\ bijection s.

(** The same invariant in the form that the operations preserve: the array
    keeps its [TOTAL_SLOTS] cells, the list holds at most that many
    reservations, no two of them share a slot, every reservation is mirrored
    by its cell and every occupied cell mirrors a reservation. *)
Definition mirrored (p : SlotArray) (l : list Reservation) : Prop :=
  arr_length p = TOTAL_SLOTS
  /\ Z.of_nat (length l) <= TOTAL_SLOTS
  /\ NoDup (r_slot <$> l)
  /\ (forall r, r ∈ l ->
      exists i, 0 <= i < TOTAL_SLOTS /\ r_slot r = Js.Num (i + 1)
                /\ arrayGet p (Js.Num i) = Some (Some (occupantOf r)))
  /\ (forall i c, 0 <= i < TOTAL_SLOTS -> arrayGet p (Js.Num i) = Some (Some c) ->
      exists r, r ∈ l /\ r_slot r = Js.Num (i + 1) /\ c = occupantOf r).

(** A slot choice the engine can read: "auto", or text that [parseInt]
    reads as a number. *)
Definition readableChoice (chosenSlot : string) : Prop :=
  chosenSlot = "auto" \/ Js.parseInt chosenSlot <> Js.NaN.

Definition readableOp (op : Op) : Prop :=
  match op with
  | Insert _ _ chosenSlot => readableChoice chosenSlot
  | Delete _ _ => True
  end.

(** A string is trimmed at the front when it is empty or begins with a
    character that is not white space. *)
Definition frontTrimmed (s : string) : Prop :=
  match s with
  | EmptyString => True
  | String c _ => Js.isWhiteSpace c = false
  end.

(** A stored plate is in the form [insertReservation] stores: trimmed and
    not empty. *)
Definition storedForm (plate : string) : Prop := Js.trim plate = plate /\ plate <> "".

Definition platesTrimmed (s : State) : Prop :=
  Forall (fun r => storedForm (r_plate r)) (arrayList s)
  /\ Forall (fun q => storedForm (o_plate q)) (queue s).

Global Instance storedForm_dec plate : Decision (storedForm plate).
Proof. unfold storedForm. apply _. Defined.

Global Instance platesTrimmed_dec s : Decision (platesTrimmed s).
Proof. unfold platesTrimmed. apply _. Defined.

(** ** Sample runs *)

Definition envAt (n : Z) : Env :=
  mkEnv "12/16/2025, 9:00:00 AM" (1765846800000 + n) n.

(** Three reservations: slots 1, 3 and 2, in that order of arrival. *)
Definition lotOfThree : State :=
  run [Insert (envAt 1) "ABC 123" "auto";
       Insert (envAt 2) "xyz789" "3";
       Insert (envAt 3) " Kia-44 " "auto"] initialState.

(** The twenty slots taken by CAR1 .. CAR20, then two requests queued. *)
Definition fullLot : State :=
  run ((fun n => Insert (envAt n) ("CAR" ++ Js.toString (Js.Num n))%string "auto")
         <$> seqZ 1 TOTAL_SLOTS) initialState.

Definition fullLotQueued : State :=
  run [Insert (envAt 21) "wait-1" "auto"; Insert (envAt 22) "WAIT-2" "4"] fullLot.


(** One insert whose slot choice is not a number. *)
Definition lotWithUnreadableChoice : State :=
  run [Insert (envAt 1) "ABC123" "abc"] initialState.

(** ** The rest of the page

    The functions around the two engine calls: the reversal of the list,
    the tiles and the dropdown that [renderGrid] draws, the click on a tile
    ([showSlotDetails]), and the counters.  What they write in the DOM is
    kept as the value they compute; the answer to a [confirm] dialog is an
    input. *)

(** [traverseReverse()]: [arrayList.reverse()] *)
Definition traverseReverse (s : State) : State :=
  {| parkingSlots := parkingSlots s;
     arrayList := rev (arrayList s);
     queue := queue s |}.

(** [showSlotDetails(i)]: nothing on a cell that holds no occupant;
    otherwise the dialog is shown and, when it is confirmed, the
    reservation with the occupant's id is deleted. *)
Definition showSlotDetails (e : Env) (confirmed : bool) (i : Z) (s : State) : State :=
  match arrayGet (parkingSlots s) (Js.Num i) with
  | Some (Some res) =>
      if confirmed then snd (deleteReservation e (o_id res) s) else s
  | _ => s
  end.

(** One tile of the grid as [renderGrid] draws it: its label [i+1], its
    class ([occupied] when [parkingSlots[i]] is truthy, [available]
    otherwise) and the plate it shows. *)
Record Tile : Set := mkTile {
  tile_label : string;
  tile_occupied : bool;
  tile_plate : option string
}.

Definition renderTile (s : State) (i : Z) : Tile :=
  let v := arrayGet (parkingSlots s) (Js.Num i) in
  {| tile_label := Js.toString (Js.Num (i + 1));
     tile_occupied := truthy v;
     tile_plate := match v with Some (Some o) => Some (o_plate o) | _ => None end |}.

(** The option values [renderGrid] puts in the slot dropdown: "auto", then
    [(i+1).toString()] for each tile. *)
Definition slotOptions : list string :=
  "auto" :: ((fun i => Js.toString (Js.Num (i + 1))) <$> seqZ 0 TOTAL_SLOTS).

(** [renderGrid()]: the tiles for [i = 0 .. TOTAL_SLOTS-1] and the options
    of the dropdown. *)
Definition renderGrid (s : State) : list Tile * list string :=
  (renderTile s <$> seqZ 0 TOTAL_SLOTS, slotOptions).

(** The numbers [updateCounters] displays. *)
Record Counters : Set := mkCounters {
  c_available : Z;
  c_reserved : Z;
  c_queued : Z
}.

Definition updateCounters (s : State) : Counters :=
  let reserved := Z.of_nat (length (arrayList s)) in
  let queued := Z.of_nat (length (queue s)) in
  let available := TOTAL_SLOTS - reserved in
  {| c_available := available; c_reserved := reserved; c_queued := queued |}.

(** [updateInsertPanel()]: the button reads JOIN QUEUE when
    [available === 0], INSERT TO ARRAYLIST otherwise. *)
Definition queueMode (s : State) : bool :=
  TOTAL_SLOTS - Z.of_nat (length (arrayList s)) =? 0.

(** What a visitor can do on the page: press the insert button or a delete
    button of the list (the two engine calls), click the tile [i], press
    the sort-by-slot button or the reverse button. *)
Inductive Action : Set :=
  | Engine (op : Op)
  | ClickTile (e : Env) (confirmed : bool) (i : Z)
  | SortBySlot
  | TraverseReverse.

Definition perform (s : State) (a : Action) : State :=
  match a with
  | Engine op => step s op
  | ClickTile e confirmed i => showSlotDetails e confirmed i s
  | SortBySlot => sortBySlot s
  | TraverseReverse => traverseReverse s
  end.

Definition session (actions : list Action) (s : State) : State :=
  fold_left perform actions s.

(** An action of the page as it is drawn: the slot choice of an insert is
    one of the dropdown's options, and a clicked tile is one of the
    [TOTAL_SLOTS] tiles. *)
Definition pageAction (a : Action) : Prop :=
  match a with
  | Engine (Insert _ _ chosenSlot) => chosenSlot ∈ slotOptions
  | ClickTile _ _ i => 0 <= i < TOTAL_SLOTS
  | _ => True
  end.

(** The indices of the tiles drawn as occupied. *)
Definition occupiedCells (p : SlotArray) : list Z :=
  filter (fun i => truthy (arrayGet p (Js.Num i)) = true) (seqZ 0 TOTAL_SLOTS).

(** The index of the tile a reservation's slot number points to. *)
Definition tileOf (n : Js.number) : Z :=
  match n with
  | Js.Num z => z - 1
  | Js.NaN => -1
  end.

(** Every cell of the SlotTable holds [null] or an occupant. *)
Definition cellsDefined (p : SlotArray) : Prop :=
  forall i, 0 <= i < TOTAL_SLOTS -> is_Some (arrayGet p (Js.Num i)).

(** The state of a page in good order: the SlotTable mirrors the list, its
    cells are all set, and requests wait only while the list is full. *)
Definition sound (s : State) : Prop :=
  mirrored (parkingSlots s) (arrayList s)
  /\ cellsDefined (parkingSlots s)
  /\ (queue s <> [] -> Z.of_nat (length (arrayList s)) = TOTAL_SLOTS).

(** The plates of the list followed by those of the queue, letter case
    set aside. *)
Definition platesOf (s : State) : list string :=
  ((fun r => Js.toLowerCase (r_plate r)) <$> arrayList s)
  ++ ((fun q => Js.toLowerCase (o_plate q)) <$> queue s).

(** No two reservations carry the same id. *)
Definition idsDistinct (s : State) : Prop := NoDup (r_id <$> arrayList s).

(** The id an action mints, if it calls the engine. *)
Definition mintedBy (a : Action) : option string :=
  match a with
  | Engine (Insert e _ _) | Engine (Delete e _) | ClickTile e _ _ => Some (mintId e)
  | _ => None
  end.

(** Along the session, every id minted is new to the list at that time. *)
Fixpoint mintsFresh (actions : list Action) (s : State) : Prop :=
  match actions with
  | [] => True
  | a :: rest =>
      match mintedBy a with
      | Some id => id ∉ (r_id <$> arrayList s)
      | None => True
      end
      /\ mintsFresh rest (perform s a)
  end.

Global Instance pageAction_dec a : Decision (pageAction a).
Proof. destruct a as [[e plate chosenSlot | e id] | e confirmed i | |]; simpl; apply _. Defined.

Global Instance mintsFresh_dec actions : forall s, Decision (mintsFresh actions s).
Proof.
  induction actions as [|a actions IH]; intros s; simpl; [apply _|].
  apply and_dec; [destruct (mintedBy a); apply _ | apply IH].
Defined.

(** A session on the page: two inserts, a declined click on tile 0, a third
    insert, then the sort and the reverse buttons. *)
Definition sampleSession : list Action :=
  [Engine (Insert (envAt 1) "ABC 123" "auto");
   Engine (Insert (envAt 2) "xyz789" "3");
   ClickTile (envAt 3) false 0;
   Engine (Insert (envAt 4) " Kia-44 " "auto");
   SortBySlot;
   TraverseReverse].

(** A session that fills the lot from the dropdown and queues two
    requests. *)
Definition fullSession : list Action :=
  ((fun n => Engine (Insert (envAt n) ("CAR" ++ Js.toString (Js.Num n))%string
                            (Js.toString (Js.Num n))))
     <$> seqZ 1 TOTAL_SLOTS)
  ++ [Engine (Insert (envAt 21) "wait-1" "auto");
      Engine (Insert (envAt 22) "WAIT-2" "4")].

(** * Theorems *)

(** ** Facts about the helpers *)

Lemma found_find_Exists {A} (f : A -> bool) (l : list A) :
  found (find f l) = true <-> Exists (fun x => f x = true) l.
Proof.
  induction l as [|x l IH]; simpl.
  - split; [discriminate | intros H; inversion H].
  - destruct (f x) eqn:Hx; simpl.
    + split; [intros _; now left | reflexivity].
    + rewrite IH. split; [intros H; now right |].
      intros H. inversion H; subst; [congruence | assumption].
Qed.

Lemma samePlate_spec plate other :
  samePlate plate other = true <-> Js.toLowerCase other = Js.toLowerCase plate.
Proof. unfold samePlate. apply String.eqb_eq. Qed.

Lemma duplicate_check_spec plate s :
  found (find (fun r => samePlate plate (r_plate r)) (arrayList s))
  || found (find (fun r => samePlate plate (o_plate r)) (queue s)) = true
  <-> plateInSystem plate s.
Proof.
  unfold plateInSystem.
  rewrite orb_true_iff, !found_find_Exists.
  rewrite !Exists_exists.
  setoid_rewrite samePlate_spec. reflexivity.
Qed.

Lemma duplicate_check_false plate s :
  ~ plateInSystem plate s ->
  found (find (fun r => samePlate plate (r_plate r)) (arrayList s))
  || found (find (fun r => samePlate plate (o_plate r)) (queue s)) = false.
Proof.
  intros H. apply not_true_is_false. now rewrite duplicate_check_spec.
Qed.

Lemma validation_check_false plate :
  validPlate plate -> String.eqb plate "" || String.eqb (Js.trim plate) "" = false.
Proof.
  unfold validPlate. intros H.
  apply orb_false_iff. split; apply String.eqb_neq; [|assumption].
  intros ->. now apply H.
Qed.

Lemma validation_check_true plate :
  ~ validPlate plate -> String.eqb plate "" || String.eqb (Js.trim plate) "" = true.
Proof.
  unfold validPlate. intros H. apply orb_true_iff. right.
  apply String.eqb_eq. destruct (decide (Js.trim plate = "")); [assumption | contradiction].
Qed.

(** ** Trimming and letter case *)

Section Strings.

Lemma isWhiteSpace_lowerChar c : Js.isWhiteSpace (Js.lowerChar c) = Js.isWhiteSpace c.
Proof. destruct c as [[] [] [] [] [] [] [] []]; reflexivity. Qed.

Lemma toLowerCase_empty s : Js.toLowerCase s = "" <-> s = "".
Proof. destruct s; simpl; split; congruence. Qed.

Lemma trimStart_toLowerCase s :
  Js.trimStart (Js.toLowerCase s) = Js.toLowerCase (Js.trimStart s).
Proof.
  induction s as [|c s IH]; [reflexivity|].
  cbn [Js.toLowerCase Js.trimStart]. rewrite isWhiteSpace_lowerChar.
  destruct (Js.isWhiteSpace c); [assumption | reflexivity].
Qed.

Lemma trimEnd_toLowerCase s :
  Js.trimEnd (Js.toLowerCase s) = Js.toLowerCase (Js.trimEnd s).
Proof.
  induction s as [|c s IH]; [reflexivity|].
  cbn [Js.toLowerCase Js.trimEnd]. rewrite IH, isWhiteSpace_lowerChar.
  destruct (Js.trimEnd s); cbn [Js.toLowerCase];
    [destruct (Js.isWhiteSpace c)|]; reflexivity.
Qed.

Lemma trim_toLowerCase s : Js.trim (Js.toLowerCase s) = Js.toLowerCase (Js.trim s).
Proof. unfold Js.trim. now rewrite trimStart_toLowerCase, trimEnd_toLowerCase. Qed.

Lemma trimStart_frontTrimmed s : frontTrimmed (Js.trimStart s).
Proof.
  induction s as [|c s IH]; [exact I|].
  cbn [Js.trimStart]. destruct (Js.isWhiteSpace c) eqn:Hc; [assumption | exact Hc].
Qed.

Lemma trimStart_id s : frontTrimmed s -> Js.trimStart s = s.
Proof.
  destruct s as [|c s]; [reflexivity|].
  cbn [frontTrimmed Js.trimStart]. intros Hc. now rewrite Hc.
Qed.

Lemma trimEnd_frontTrimmed s : frontTrimmed s -> frontTrimmed (Js.trimEnd s).
Proof.
  destruct s as [|c s]; [trivial|]. cbn [Js.trimEnd frontTrimmed]. intros Hc.
  rewrite Hc. destruct (Js.trimEnd s); exact Hc.
Qed.

Lemma trimEnd_idem s : Js.trimEnd (Js.trimEnd s) = Js.trimEnd s.
Proof.
  induction s as [|c s IH]; [reflexivity|].
  cbn [Js.trimEnd]. destruct (Js.trimEnd s) as [|d t] eqn:Ht.
  - destruct (Js.isWhiteSpace c) eqn:Hc; [reflexivity|].
    cbn [Js.trimEnd]. now rewrite Hc.
  - cbn [Js.trimEnd] in *. now rewrite IH.
Qed.

Lemma trim_idem s : Js.trim (Js.trim s) = Js.trim s.
Proof.
  unfold Js.trim.
  rewrite (trimStart_id (Js.trimEnd (Js.trimStart s))).
  - apply trimEnd_idem.
  - apply trimEnd_frontTrimmed, trimStart_frontTrimmed.
Qed.

Lemma validPlate_storedForm plate : validPlate plate -> storedForm (Js.trim plate).
Proof. intros H. split; [apply trim_idem | exact H]. Qed.

(** A plate that differs only by letter case from a plate in stored form is
    itself valid, and trimming it keeps it equal up to letter case. *)
Lemma storedForm_same_case q plate :
  storedForm q -> Js.toLowerCase q = Js.toLowerCase plate ->
  validPlate plate /\ Js.toLowerCase q = Js.toLowerCase (Js.trim plate).
Proof.
  intros [Htrim Hne] Heq.
  assert (H : Js.toLowerCase (Js.trim plate) = Js.toLowerCase q).
  { now rewrite <- trim_toLowerCase, <- Heq, trim_toLowerCase, Htrim. }
  split; [|now symmetry].
  unfold validPlate. intros Hempty. rewrite Hempty in H. simpl in H.
  symmetry in H. apply (proj1 (toLowerCase_empty q)) in H. contradiction.
Qed.

End Strings.

(** The only errors of the slot resolution. *)
Lemma resolveSlot_error s chosenSlot err :
  resolveSlot s chosenSlot = inl err ->
  err = InvalidSlotError \/ err = SlotOccupiedError.
Proof.
  unfold resolveSlot.
  destruct (String.eqb chosenSlot "auto"); [discriminate|].
  destruct (_ || _); [intros H; inversion H; now left|].
  destruct (truthy _); [intros H; inversion H; now right | discriminate].
Qed.

(** ** Inserting *)

Section Insert.

Variable e : Env.
Variable s : State.

(** An input that is empty once trimmed is refused before anything else. *)
Lemma insert_invalid plate chosenSlot :
  ~ validPlate plate ->
  insertReservation e plate chosenSlot s = (ValidationError, s).
Proof.
  intros H. unfold insertReservation. now rewrite validation_check_true.
Qed.

(** A plate already in the system ends the call. *)
Lemma insert_duplicate plate chosenSlot :
  validPlate plate -> plateInSystem (Js.trim plate) s ->
  insertReservation e plate chosenSlot s = (DuplicateError, s).
Proof.
  intros Hv Hd. unfold insertReservation.
  rewrite validation_check_false by assumption.
  apply duplicate_check_spec in Hd. now rewrite Hd.
Qed.

(** What is left of [insertReservation] once the plate has passed the two
    checks. *)
Lemma insert_accepted plate chosenSlot :
  validPlate plate -> ~ plateInSystem (Js.trim plate) s ->
  insertReservation e plate chosenSlot s =
  let p := Js.trim plate in
  if TOTAL_SLOTS <=? Z.of_nat (length (arrayList s)) then
    (Queued, mkState (parkingSlots s) (arrayList s)
                     (queue s ++ [mkOccupant p (nowString e) (mintId e)]))
  else
    match resolveSlot s chosenSlot with
    | inl err => (err, s)
    | inr slotIndex =>
        if Js.strictEq slotIndex (Js.Num (-1)) then
          (QueuedNoSlot, mkState (parkingSlots s) (arrayList s)
                                 (queue s ++ [mkOccupant p (nowString e) (mintId e)]))
        else
          (Reserved (Js.add slotIndex (Js.Num 1)) (mintId e) (nowString e),
           mkState (arraySet (parkingSlots s) slotIndex
                             (Some (mkOccupant p (nowString e) (mintId e))))
                   (arrayList s ++
                    [mkReservation p (Js.add slotIndex (Js.Num 1)) (nowString e) (mintId e)])
                   (queue s))
    end.
Proof.
  intros Hv Hd. unfold insertReservation.
  rewrite validation_check_false by assumption.
  rewrite duplicate_check_false by assumption.
  reflexivity.
Qed.

End Insert.

(** In a state whose plates are in stored form, a plate that is in the
    system as it was typed is valid and is in the system once trimmed. *)
Lemma plateInSystem_trim plate s :
  platesTrimmed s -> plateInSystem plate s ->
  validPlate plate /\ plateInSystem (Js.trim plate) s.
Proof.
  intros [Hl Hq] [H|H]; apply Exists_exists in H as (x & Hx & Heq).
  - rewrite Forall_forall in Hl.
    destruct (storedForm_same_case _ _ (Hl x Hx) Heq) as [Hv Heq'].
    split; [assumption|]. left. apply Exists_exists. eauto.
  - rewrite Forall_forall in Hq.
    destruct (storedForm_same_case _ _ (Hq x Hx) Heq) as [Hv Heq'].
    split; [assumption|]. right. apply Exists_exists. eauto.
Qed.

Lemma insert_preserves_plates e plate chosenSlot s :
  platesTrimmed s -> platesTrimmed (snd (insertReservation e plate chosenSlot s)).
Proof.
  intros Hp.
  destruct (decide (validPlate plate)) as [Hv|Hv];
    [|now rewrite insert_invalid].
  destruct (decide (plateInSystem (Js.trim plate) s)) as [Hd|Hd];
    [now rewrite insert_duplicate|].
  rewrite insert_accepted by assumption. cbv zeta.
  pose proof (validPlate_storedForm plate Hv) as Hs.
  destruct Hp as [Hl Hq].
  assert (Hqueued : platesTrimmed
            (mkState (parkingSlots s) (arrayList s)
               (queue s ++ [mkOccupant (Js.trim plate) (nowString e) (mintId e)]))).
  { split; simpl; [assumption|]. apply Forall_app. split; [assumption|].
    now apply Forall_singleton. }
  destruct (TOTAL_SLOTS <=? _); [exact Hqueued|].
  destruct (resolveSlot s chosenSlot) as [err|si]; [now split|].
  destruct (Js.strictEq _ _); [exact Hqueued|].
  split; simpl; [|assumption]. apply Forall_app. split; [assumption|].
  now apply Forall_singleton.
Qed.

Lemma delete_preserves_plates e id s :
  platesTrimmed s -> platesTrimmed (snd (deleteReservation e id s)).
Proof.
  intros [Hl Hq]. unfold deleteReservation.
  destruct (list_find _ _) as [[idx r]|]; [|now split].
  destruct (queue s) as [|next rest] eqn:Hqueue; simpl.
  - split; simpl; [now apply Forall_delete | constructor].
  - apply Forall_cons in Hq as [Hnext Hrest].
    split; simpl; [|assumption]. apply Forall_app. split; [now apply Forall_delete|].
    now apply Forall_singleton.
Qed.

(** Every state a run reaches from the initial state holds its plates in
    stored form. *)
Lemma run_platesTrimmed ops : platesTrimmed (run ops initialState).
Proof.
  assert (H : forall s, platesTrimmed s -> platesTrimmed (run ops s)).
  { induction ops as [|op ops IH]; intros s Hs; [assumption|].
    simpl. apply IH. destruct op; simpl.
    - now apply insert_preserves_plates.
    - now apply delete_preserves_plates. }
  apply H. split; constructor.
Qed.

(** C3.  A plate that is already in the system, letter case set aside, is
    refused with [DuplicateError] whatever the slot choice, and the state is
    returned as it was.  The comparison is made on the trimmed input, so this
    holds in every state for a valid input whose trimmed form is in the
    system; and it holds for an input that is in the system exactly as
    typed, in every state whose plates are in the form the engine stores
    (trimmed, not empty), which every run from the initial state keeps. *)
Theorem insert_duplicate_rejected (e : Env) (plate chosenSlot : string) (s : State) :
  (validPlate plate -> plateInSystem (Js.trim plate) s ->
   insertReservation e plate chosenSlot s = (DuplicateError, s))
  /\ (platesTrimmed s -> plateInSystem plate s ->
      insertReservation e plate chosenSlot s = (DuplicateError, s)).
Proof.
  split.
  - apply insert_duplicate.
  - intros Hp Hin. destruct (plateInSystem_trim plate s Hp Hin).
    now apply insert_duplicate.
Qed.

(** C4.  When [arrayList] holds [TOTAL_SLOTS] reservations, a valid plate
    that is not in the system is appended at the back of [queue], the call
    ends as [Queued], and [parkingSlots] and [arrayList] are untouched. *)
Theorem insert_full_enqueues (e : Env) (plate chosenSlot : string) (s : State) :
  validPlate plate ->
  ~ plateInSystem (Js.trim plate) s ->
  Z.of_nat (length (arrayList s)) = TOTAL_SLOTS ->
  insertReservation e plate chosenSlot s =
  (Queued,
   {| parkingSlots := parkingSlots s;
      arrayList := arrayList s;
      queue := queue s ++ [mkOccupant (Js.trim plate) (nowString e) (mintId e)] |}).
Proof.
  intros Hv Hd Hfull.
  rewrite insert_accepted by assumption. cbv zeta.
  now rewrite Hfull, Z.leb_refl.
Qed.

(** The scan for the first [null] cell: it yields [-1] when no scanned cell
    is [null], and otherwise the lowest index that holds [null]. *)
Lemma isNull_spec v : isNull v = true <-> v = Some None.
Proof. destruct v as [[c|]|]; simpl; split; congruence. Qed.

Lemma findNullFrom_spec a n : forall i, 0 <= i ->
  (findNullFrom a i n = Js.Num (-1)
   /\ forall j, i <= j < i + Z.of_nat n -> isNull (arrayGet a (Js.Num j)) = false)
  \/ (exists k, findNullFrom a i n = Js.Num k
      /\ i <= k < i + Z.of_nat n
      /\ isNull (arrayGet a (Js.Num k)) = true
      /\ forall j, i <= j < k -> isNull (arrayGet a (Js.Num j)) = false).
Proof.
  induction n as [|n IH]; intros i Hi; simpl findNullFrom.
  - left. split; [reflexivity | intros j Hj; lia].
  - destruct (isNull (arrayGet a (Js.Num i))) eqn:Hnull.
    + right. exists i. split; [reflexivity|]. split; [lia|]. split; [assumption|].
      intros j Hj; lia.
    + destruct (IH (i + 1) ltac:(lia)) as [[Hr Hall] | (k & Hr & Hk & Hnk & Hlow)].
      * left. split; [assumption|]. intros j Hj.
        destruct (decide (j = i)) as [->|Hne]; [assumption | apply Hall; lia].
      * right. exists k. split; [assumption|]. split; [lia|]. split; [assumption|].
        intros j Hj.
        destruct (decide (j = i)) as [->|Hne]; [assumption | apply Hlow; lia].
Qed.

(** The array never shrinks: along every run it keeps at least the
    [TOTAL_SLOTS] cells it was created with. *)
Lemma arraySet_length a k v : arr_length a <= arr_length (arraySet a k v).
Proof.
  unfold arraySet; simpl. destruct k as [z|]; [|lia].
  destruct (isArrayIndex (Js.Num z) && (arr_length a <=? z)) eqn:H; [|lia].
  apply andb_true_iff in H as [_ H]. apply Z.leb_le in H. lia.
Qed.

Lemma run_array_length ops :
  TOTAL_SLOTS <= arr_length (parkingSlots (run ops initialState)).
Proof.
  assert (H : forall s, TOTAL_SLOTS <= arr_length (parkingSlots s) ->
                        TOTAL_SLOTS <= arr_length (parkingSlots (run ops s))).
  { induction ops as [|op ops IH]; intros s Hs; [assumption|].
    cbn [run fold_left]. apply IH.
    destruct op as [e plate chosenSlot | e id]; cbn [step].
    - unfold insertReservation.
      repeat match goal with
             | |- context [if ?b then _ else _] => destruct b
             | |- context [match ?x with inl _ => _ | inr _ => _ end] => destruct x
             end; cbn [snd parkingSlots]; try assumption.
      etransitivity; [exact Hs | apply arraySet_length].
    - unfold deleteReservation.
      destruct (list_find _ _) as [[idx r]|]; [|assumption].
      destruct (queue s); cbn [snd parkingSlots].
      + etransitivity; [exact Hs | apply arraySet_length].
      + etransitivity; [exact Hs|].
        etransitivity; [|apply arraySet_length]. apply arraySet_length. }
  apply H. reflexivity.
Qed.

(** C5.  With fewer than [TOTAL_SLOTS] reservations and an empty cell among
    the [TOTAL_SLOTS] cells of the SlotTable (the array holding at least
    these cells, as it does along every run), inserting a valid plate that
    is not in the system with the choice "auto" takes the empty cell of
    lowest index [i0]: the call ends as [Reserved] at slot [i0 + 1], the
    occupant is written in cell [i0] and the reservation is appended to
    [arrayList]. *)
Theorem insert_auto_lowest_free (e : Env) (plate : string) (s : State) :
  validPlate plate ->
  ~ plateInSystem (Js.trim plate) s ->
  Z.of_nat (length (arrayList s)) < TOTAL_SLOTS ->
  TOTAL_SLOTS <= arr_length (parkingSlots s) ->
  (exists i, 0 <= i < TOTAL_SLOTS /\ cellEmpty s i) ->
  exists i0,
    (0 <= i0 < TOTAL_SLOTS /\ cellEmpty s i0
     /\ forall j, 0 <= j < i0 -> ~ cellEmpty s j)
    /\ insertReservation e plate "auto" s =
       (Reserved (Js.Num (i0 + 1)) (mintId e) (nowString e),
        {| parkingSlots :=
             arraySet (parkingSlots s) (Js.Num i0)
                      (Some (mkOccupant (Js.trim plate) (nowString e) (mintId e)));
           arrayList :=
             arrayList s ++
             [mkReservation (Js.trim plate) (Js.Num (i0 + 1)) (nowString e) (mintId e)];
           queue := queue s |}).
Proof.
  intros Hv Hd Hlen Harr (i & Hi & Hempty).
  rewrite insert_accepted by assumption. cbv zeta.
  destruct (TOTAL_SLOTS <=? _) eqn:Hfull; [apply Z.leb_le in Hfull; lia|].
  unfold resolveSlot. simpl String.eqb. unfold findIndexNull.
  destruct (findNullFrom_spec (parkingSlots s) (Z.to_nat (arr_length (parkingSlots s))) 0
              ltac:(lia)) as [[_ Hall] | (k & Hr & Hk & Hnk & Hlow)].
  - exfalso. specialize (Hall i ltac:(lia)).
    unfold cellEmpty, cell in Hempty. rewrite Hempty in Hall. discriminate.
  - assert (k <= i).
    { destruct (Z.le_gt_cases k i) as [?|Hgt]; [assumption|].
      specialize (Hlow i ltac:(lia)).
      unfold cellEmpty, cell in Hempty. rewrite Hempty in Hlow. discriminate. }
    exists k. split.
    + split; [lia|]. split; [now apply isNull_spec|].
      intros j Hj Hej. apply isNull_spec in Hej.
      unfold cell in Hej. rewrite (Hlow j Hj) in Hej. discriminate.
    + rewrite Hr. simpl Js.strictEq.
      destruct (k =? -1) eqn:Hk1; [apply Z.eqb_eq in Hk1; lia|].
      reflexivity.
Qed.

(** An explicit slot choice that reads as a number [n]: outside
    [1..TOTAL_SLOTS] the call ends as [InvalidSlotError], on an occupied cell
    as [SlotOccupiedError], and neither changes the state. *)
Lemma insert_explicit_number_rejected (e : Env) (plate chosenSlot : string)
    (s : State) (n : Z) :
  validPlate plate ->
  ~ plateInSystem (Js.trim plate) s ->
  Z.of_nat (length (arrayList s)) < TOTAL_SLOTS ->
  chosenSlot <> "auto" ->
  Js.parseInt chosenSlot = Js.Num n ->
  (~ 1 <= n <= TOTAL_SLOTS ->
   insertReservation e plate chosenSlot s = (InvalidSlotError, s))
  /\ (1 <= n <= TOTAL_SLOTS -> cellOccupied s (n - 1) ->
      insertReservation e plate chosenSlot s = (SlotOccupiedError, s)).
Proof.
  intros Hv Hd Hlen Hauto Hparse.
  rewrite insert_accepted by assumption. cbv zeta.
  destruct (TOTAL_SLOTS <=? _) eqn:Hfull; [apply Z.leb_le in Hfull; lia|].
  unfold resolveSlot.
  apply String.eqb_neq in Hauto. rewrite Hauto, Hparse. simpl.
  split.
  - intros Hn.
    destruct (n - 1 <? 0) eqn:H0; [reflexivity|].
    destruct (TOTAL_SLOTS <=? n - 1) eqn:H1; [reflexivity|].
    apply Z.ltb_ge in H0. apply Z.leb_gt in H1. lia.
  - intros Hn [c Hc].
    destruct (n - 1 <? 0) eqn:H0; [apply Z.ltb_lt in H0; lia|].
    destruct (TOTAL_SLOTS <=? n - 1) eqn:H1; [apply Z.leb_le in H1; lia|].
    simpl. unfold cell in Hc. rewrite Hc. reflexivity.
Qed.

(** ** Deleting *)

(** C7.  Deleting an id that no reservation carries changes nothing and
    raises nothing: the call ends as [NotFound] with the state it was given,
    so that repeating it is harmless. *)
Theorem delete_absent_noop (e : Env) (id : string) (s : State) :
  Forall (fun r => r_id r <> id) (arrayList s) ->
  deleteReservation e id s = (NotFound, s).
Proof.
  intros H. unfold deleteReservation.
  apply (list_find_None (fun r => r_id r = id)) in H. now rewrite H.
Qed.

Lemma firstWithId_find id s idx r :
  firstWithId id s idx r <->
  list_find (fun r => r_id r = id) (arrayList s) = Some (idx, r).
Proof. unfold firstWithId. now rewrite list_find_Some. Qed.

Lemma arrayGet_arraySet_eq a k v : arrayGet (arraySet a k v) k = Some v.
Proof. unfold arrayGet, arraySet; simpl. apply lookup_insert_eq. Qed.

Lemma arrayGet_arraySet_ne a k k' v :
  k <> k' -> arrayGet (arraySet a k v) k' = arrayGet a k'.
Proof. intros H. unfold arrayGet, arraySet; simpl. now apply lookup_insert_ne. Qed.

(** What [deleteReservation] does once the reservation is found. *)
Lemma delete_found e id s idx r :
  firstWithId id s idx r ->
  deleteReservation e id s =
  let cellKey := Js.sub (r_slot r) (Js.Num 1) in
  match queue s with
  | [] =>
      (Deleted None,
       mkState (arraySet (parkingSlots s) cellKey None)
               (delete idx (arrayList s)) (queue s))
  | next :: rest =>
      (Deleted (Some (o_plate next, r_slot r)),
       mkState (arraySet (arraySet (parkingSlots s) cellKey None) cellKey
                         (Some (mkOccupant (o_plate next) (nowString e) (mintId e))))
               (delete idx (arrayList s) ++
                [mkReservation (o_plate next) (r_slot r) (nowString e) (mintId e)])
               rest)
  end.
Proof.
  intros H. apply firstWithId_find in H.
  unfold deleteReservation. rewrite H. reflexivity.
Qed.


(** C10.  A new reservation always goes to the end of [arrayList]: an
    insert that ends as [Reserved] returns [arrayList] with the new record
    as its last element, and a delete that promotes returns [arrayList]
    without the deleted record, the others in their order, followed by the
    promoted record. *)
Theorem new_reservation_at_tail (e : Env) (s : State) :
  (forall plate chosenSlot slot id time s',
      insertReservation e plate chosenSlot s = (Reserved slot id time, s') ->
      arrayList s' = arrayList s ++ [mkReservation (Js.trim plate) slot time id])
  /\ (forall id plate slot s',
      deleteReservation e id s = (Deleted (Some (plate, slot)), s') ->
      exists idx r,
        firstWithId id s idx r
        /\ arrayList s' =
           delete idx (arrayList s) ++ [mkReservation plate slot (nowString e) (mintId e)]).
Proof.
  split.
  - intros plate chosenSlot slot id time s'.
    destruct (decide (validPlate plate)) as [Hv|Hv];
      [|rewrite insert_invalid by assumption; discriminate].
    destruct (decide (plateInSystem (Js.trim plate) s)) as [Hd|Hd];
      [rewrite insert_duplicate by assumption; discriminate|].
    rewrite insert_accepted by assumption. cbv zeta.
    destruct (TOTAL_SLOTS <=? _); [discriminate|].
    destruct (resolveSlot s chosenSlot) as [err|slotIndex] eqn:Hres.
    + apply resolveSlot_error in Hres as [-> | ->]; discriminate.
    + destruct (Js.strictEq _ _); [discriminate|].
      intros H; inversion H; subst; reflexivity.
  - intros id plate slot s' H.
    unfold deleteReservation in H.
    destruct (list_find _ _) as [[idx r]|] eqn:Hfind; [|discriminate].
    exists idx, r. split; [now apply firstWithId_find|].
    destruct (queue s) as [|next rest]; inversion H; subst; reflexivity.
Qed.

(** ** Searching *)

Lemma append_String a s t : (String a s ++ t)%string = String a (s ++ t)%string.
Proof. reflexivity. Qed.

Lemma append_empty t : ("" ++ t)%string = t.
Proof. reflexivity. Qed.

Lemma startsWith_spec t : forall s,
  Js.startsWith s t = true <-> exists post, s = (t ++ post)%string.
Proof.
  induction t as [|b t IH]; intros s.
  - destruct s; split; eauto.
  - destruct s as [|a s]; cbn [Js.startsWith String.append].
    + split; [discriminate | intros [post H]; rewrite append_String in H; discriminate].
    + destruct (Ascii.eqb a b) eqn:Hab.
      * apply Ascii.eqb_eq in Hab as ->. rewrite IH.
        split; intros [post H]; exists post; rewrite append_String in *; congruence.
      * apply Ascii.eqb_neq in Hab.
        split; [discriminate | intros [post H]; rewrite append_String in H; congruence].
Qed.

Lemma includes_spec t : forall s, Js.includes s t = true <-> isSubstring t s.
Proof.
  unfold isSubstring.
  induction s as [|a s IH].
  - change (Js.includes "" t) with (Js.startsWith "" t || false).
    rewrite orb_false_r, startsWith_spec. split.
    + intros [post H]. now exists "", post.
    + intros (pre & post & H).
      destruct pre; [now exists post | rewrite append_String in H; discriminate].
  - change (Js.includes (String a s) t)
      with (Js.startsWith (String a s) t || Js.includes s t).
    rewrite orb_true_iff, startsWith_spec, IH. split.
    + intros [[post H] | (pre & post & H)].
      * now exists "", post.
      * exists (String a pre), post. rewrite append_String. now rewrite H.
    + intros (pre & post & H). destruct pre as [|c pre].
      * left. now exists post.
      * right. rewrite append_String in H. exists pre, post. congruence.
Qed.

Lemma matches_spec term r : matches term r = true <-> matchesTerm term r.
Proof.
  unfold matches, matchesTerm.
  now rewrite orb_true_iff, includes_spec, String.eqb_eq.
Qed.

Global Instance matchesTerm_dec term r : Decision (matchesTerm term r).
Proof.
  destruct (matches term r) eqn:H.
  - left. now apply matches_spec.
  - right. intros Hm. apply matches_spec in Hm. congruence.
Defined.

(** The [forEach] loop that pushes the matches leaves them in [results] in
    the order of the list. *)
Lemma push_matches_filter term (l : list Reservation) : forall acc,
  fold_left (fun results r => if matches term r then results ++ [r] else results) l acc
  = acc ++ filter (matchesTerm term) l.
Proof.
  induction l as [|r l IH]; intros acc; simpl.
  - now rewrite app_nil_r.
  - rewrite IH. rewrite filter_cons.
    destruct (matches term r) eqn:Hm.
    + rewrite decide_True by now apply matches_spec.
      now rewrite <- app_assoc.
    + rewrite decide_False; [reflexivity|].
      intros H. apply matches_spec in H. congruence.
Qed.

(** C9.  A term that is empty once trimmed clears the panel: the result set
    is empty and nothing fails.  Otherwise the result set is [arrayList]
    filtered, in its current order, by: the plate contains the trimmed term
    (letter case set aside) or the slot number is written exactly as the
    trimmed term.  In both cases it is a subsequence of [arrayList]. *)
Theorem search_returns_matches (term : string) (s : State) :
  (Js.trim term = "" -> search term s = Cleared /\ resultSet (search term s) = [])
  /\ (Js.trim term <> "" ->
      resultSet (search term s) = filter (matchesTerm (Js.trim term)) (arrayList s))
  /\ sublist (resultSet (search term s)) (arrayList s).
Proof.
  assert (Hne : Js.trim term <> "" ->
      resultSet (search term s) = filter (matchesTerm (Js.trim term)) (arrayList s)).
  { intros Ht. unfold search. cbv zeta.
    apply String.eqb_neq in Ht. rewrite Ht.
    rewrite push_matches_filter, app_nil_l.
    destruct (Nat.eqb (length (arrayList s)) 0) eqn:Hlen.
    - apply Nat.eqb_eq, nil_length_inv in Hlen. now rewrite Hlen.
    - destruct (filter _ _); reflexivity. }
  split; [|split].
  - intros Ht. unfold search. rewrite Ht. simpl. auto.
  - exact Hne.
  - destruct (decide (Js.trim term = "")) as [Ht|Ht].
    + unfold search. rewrite Ht. simpl. apply sublist_nil_l.
    + rewrite Hne by assumption. apply sublist_filter.
Qed.

(** ** Sorting *)

Section Sort.

(** [x] goes behind [y] exactly when both carry numbers and [x]'s is the
    larger. *)
Lemma bySlot_gt (a b : Reservation) :
  Js.gt (bySlot a b) (Js.Num 0) = true <->
  exists x y, r_slot a = Js.Num x /\ r_slot b = Js.Num y /\ y < x.
Proof.
  unfold bySlot. destruct (r_slot a) as [x|], (r_slot b) as [y|]; simpl.
  - rewrite Z.ltb_lt. split.
    + intros H. exists x, y. repeat split; lia.
    + intros (x' & y' & Hx & Hy & H). inversion Hx; inversion Hy; lia.
  - split; [discriminate | intros (? & ? & _ & ? & _); discriminate].
  - split; [discriminate | intros (? & ? & ? & _); discriminate].
  - split; [discriminate | intros (? & ? & ? & _); discriminate].
Qed.

Lemma bySlot_not_gt (a b : Reservation) :
  r_slot a <> Js.NaN -> r_slot b <> Js.NaN ->
  Js.gt (bySlot a b) (Js.Num 0) = false -> slotLe a b.
Proof.
  unfold bySlot, slotLe.
  destruct (r_slot a) as [x|], (r_slot b) as [y|]; simpl; try congruence.
  intros _ _ H. apply Z.ltb_ge in H. lia.
Qed.

Lemma sortInsert_perm {A} (cmp : A -> A -> Js.number) x l :
  sortInsert cmp x l ≡ₚ x :: l.
Proof.
  induction l as [|y l IH]; simpl; [reflexivity|].
  destruct (Js.gt _ _); [|reflexivity].
  rewrite IH. apply perm_swap.
Qed.

Lemma arraySort_perm {A} (cmp : A -> A -> Js.number) l : arraySort cmp l ≡ₚ l.
Proof.
  induction l as [|x l IH]; simpl; [reflexivity|].
  unfold arraySort in *. simpl. now rewrite sortInsert_perm, IH.
Qed.

(** Inserting never moves a record past another with the same slot. *)
Lemma sortInsert_withSlot k x l :
  withSlot k (sortInsert bySlot x l) = withSlot k (x :: l).
Proof.
  unfold withSlot.
  induction l as [|y l IH]; simpl; [reflexivity|].
  destruct (Js.gt (bySlot x y) (Js.Num 0)) eqn:Hgt; [|reflexivity].
  apply bySlot_gt in Hgt as (a & b & Ha & Hb & Hlt).
  rewrite (filter_cons _ y), IH, !filter_cons.
  repeat case_decide; try reflexivity.
  exfalso. assert (a = b) by congruence. lia.
Qed.

Lemma arraySort_withSlot k l : withSlot k (arraySort bySlot l) = withSlot k l.
Proof.
  induction l as [|x l IH]; [reflexivity|].
  change (arraySort bySlot (x :: l)) with (sortInsert bySlot x (arraySort bySlot l)).
  rewrite sortInsert_withSlot. unfold withSlot in *.
  now rewrite !filter_cons, IH.
Qed.

Lemma slotLe_trans a b c : slotLe a b -> slotLe b c -> slotLe a c.
Proof.
  unfold slotLe.
  destruct (r_slot a), (r_slot b), (r_slot c); try tauto. lia.
Qed.

Lemma sortInsert_sorted x l :
  r_slot x <> Js.NaN -> numericSlots l -> nonDecreasing l ->
  nonDecreasing (sortInsert bySlot x l).
Proof.
  unfold nonDecreasing, numericSlots. intros Hx Hnum Hs.
  induction Hs as [|y l Hs IH Hy]; simpl.
  - repeat constructor.
  - apply Forall_cons in Hnum as [Hny Hnum].
    destruct (Js.gt (bySlot x y) (Js.Num 0)) eqn:Hgt.
    + constructor; [now apply IH|].
      rewrite sortInsert_perm. constructor; [|assumption].
      apply bySlot_gt in Hgt as (a & b & Ha & Hb & Hlt).
      unfold slotLe. rewrite Ha, Hb. lia.
    + pose proof (bySlot_not_gt x y Hx Hny Hgt) as Hxy.
      constructor; [now constructor|].
      constructor; [assumption|].
      eapply Forall_impl; [exact Hy|]. intros z Hz. eapply slotLe_trans; eassumption.
Qed.

Lemma arraySort_sorted l : numericSlots l -> nonDecreasing (arraySort bySlot l).
Proof.
  intros Hnum. induction l as [|x l IH]; [constructor|].
  apply Forall_cons in Hnum as [Hx Hnum].
  change (arraySort bySlot (x :: l)) with (sortInsert bySlot x (arraySort bySlot l)).
  apply sortInsert_sorted; [assumption| |now apply IH].
  unfold numericSlots. now rewrite arraySort_perm.
Qed.

(** Sorting a list that is already in order leaves it as it is. *)
Lemma arraySort_of_sorted l : nonDecreasing l -> arraySort bySlot l = l.
Proof.
  unfold nonDecreasing. intros Hs.
  induction Hs as [|x l Hs IH Hx]; [reflexivity|].
  change (arraySort bySlot (x :: l)) with (sortInsert bySlot x (arraySort bySlot l)).
  rewrite IH. destruct l as [|y l]; [reflexivity|]. simpl.
  apply Forall_cons in Hx as [Hxy _].
  destruct (Js.gt (bySlot x y) (Js.Num 0)) eqn:Hgt; [|reflexivity].
  apply bySlot_gt in Hgt as (a & b & Ha & Hb & Hlt).
  unfold slotLe in Hxy. rewrite Ha, Hb in Hxy. lia.
Qed.

Lemma withSlot_head x l : withSlot (r_slot x) (x :: l) = x :: withSlot (r_slot x) l.
Proof. unfold withSlot. rewrite filter_cons. now rewrite decide_True. Qed.

Lemma withSlot_skip k x l : r_slot x <> k -> withSlot k (x :: l) = withSlot k l.
Proof. intros H. unfold withSlot. rewrite filter_cons. now rewrite decide_False. Qed.

Lemma withSlot_elem k x l : x ∈ withSlot k l -> x ∈ l.
Proof. unfold withSlot. rewrite list_elem_of_filter. tauto. Qed.

(** Two arrangements in slot order with the same records, in the same
    order, at every slot are the same list: the stable sorted arrangement
    is unique. *)
Lemma sorted_stable_unique l1 : forall l2,
  nonDecreasing l1 -> nonDecreasing l2 ->
  (forall k, withSlot k l1 = withSlot k l2) ->
  l1 = l2.
Proof.
  unfold nonDecreasing.
  induction l1 as [|x l1 IH]; intros l2 Hs1 Hs2 Heq.
  - destruct l2 as [|y l2]; [reflexivity|].
    specialize (Heq (r_slot y)). rewrite withSlot_head in Heq. discriminate.
  - destruct l2 as [|y l2].
    { specialize (Heq (r_slot x)). rewrite withSlot_head in Heq. discriminate. }
    apply StronglySorted_inv in Hs1 as [Hs1 Hx].
    apply StronglySorted_inv in Hs2 as [Hs2 Hy].
    destruct (decide (r_slot x = r_slot y)) as [Hxy|Hxy].
    + pose proof (Heq (r_slot x)) as Hk.
      rewrite withSlot_head, Hxy, withSlot_head in Hk.
      injection Hk as Hhead Htail. subst y.
      f_equal. apply IH; [assumption..|].
      intros k. destruct (decide (r_slot x = k)) as [<-|Hne].
      * exact Htail.
      * specialize (Heq k). now rewrite !withSlot_skip in Heq.
    + exfalso.
      assert (Hyin : y ∈ l1).
      { apply (withSlot_elem (r_slot y)).
        rewrite <- (withSlot_skip (r_slot y) x) by assumption.
        rewrite Heq, withSlot_head. left. }
      assert (Hxin : x ∈ l2).
      { apply (withSlot_elem (r_slot x)).
        rewrite <- (withSlot_skip (r_slot x) y) by congruence.
        rewrite <- Heq, withSlot_head. left. }
      rewrite Forall_forall in Hx, Hy.
      specialize (Hx y Hyin). specialize (Hy x Hxin).
      unfold slotLe in Hx, Hy.
      destruct (r_slot x), (r_slot y); try contradiction.
      apply Hxy. f_equal. lia.
Qed.

(** So, on records that all carry slot numbers, whatever arrangement a
    stable sort by slot returns is the one [arraySort] computes. *)
Lemma arraySort_determined l l' :
  numericSlots l -> nonDecreasing l' ->
  (forall k, withSlot k l' = withSlot k l) ->
  l' = arraySort bySlot l.
Proof.
  intros Hnum Hs Hst. apply sorted_stable_unique; [assumption| |].
  - now apply arraySort_sorted.
  - intros k. now rewrite Hst, arraySort_withSlot.
Qed.

End Sort.

(** C8.  On a list whose reservations all carry slot numbers (the integer
    slot of the data model; none is NaN), [sortBySlot] leaves the slot
    numbers in non-decreasing order; it is stable (the records of any one
    slot keep their relative order); it only rearranges [arrayList]; and a
    second call returns exactly the state the first returned. *)
Theorem sortBySlot_sorted_stable_idempotent (s : State) :
  numericSlots (arrayList s) ->
  nonDecreasing (arrayList (sortBySlot s))
  /\ (forall k, withSlot k (arrayList (sortBySlot s)) = withSlot k (arrayList s))
  /\ arrayList (sortBySlot s) ≡ₚ arrayList s
  /\ sortBySlot (sortBySlot s) = sortBySlot s.
Proof.
  intros Hnum. simpl.
  split; [now apply arraySort_sorted|].
  split; [intros k; apply arraySort_withSlot|].
  split; [apply arraySort_perm|].
  unfold sortBySlot; simpl. f_equal.
  apply arraySort_of_sorted. now apply arraySort_sorted.
Qed.

(** ** The SlotTable and the list of reservations *)

Section Mirror.

Lemma fill_lookup (l : list Z) k v :
  foldr (fun i m => <[Js.Num i := None]> m) (∅ : gmap Js.number (option Occupant)) l !! k
  = Some v -> v = None.
Proof.
  induction l as [|i l IH]; simpl.
  - rewrite lookup_empty. discriminate.
  - rewrite lookup_insert. case_decide; [congruence | exact IH].
Qed.

Lemma mirrored_initial : mirrored (parkingSlots initialState) [].
Proof.
  unfold mirrored. split; [reflexivity|]. split; [simpl; unfold TOTAL_SLOTS; lia|].
  split; [constructor|]. split.
  - intros r Hr. inversion Hr.
  - intros i c _ H. apply fill_lookup in H. discriminate.
Qed.

(** Writing an occupant in a cell that holds none, and appending its
    reservation. *)
Lemma mirrored_add p l k r :
  mirrored p l ->
  0 <= k < TOTAL_SLOTS ->
  truthy (arrayGet p (Js.Num k)) = false ->
  Z.of_nat (length l) < TOTAL_SLOTS ->
  r_slot r = Js.Num (k + 1) ->
  mirrored (arraySet p (Js.Num k) (Some (occupantOf r))) (l ++ [r]).
Proof.
  intros (Hlen & Hsize & Hnd & Hfwd & Hbwd) Hk Hfree Hroom Hslot.
  assert (Hfresh : forall r', r' ∈ l -> r_slot r' <> Js.Num (k + 1)).
  { intros r' Hr' Heq. destruct (Hfwd r' Hr') as (i & Hi & Hsl & Hc).
    assert (i = k) by (rewrite Hsl in Heq; inversion Heq; lia). subst i.
    rewrite Hc in Hfree. discriminate. }
  unfold mirrored. split; [|split; [|split; [|split]]].
  - unfold arraySet; simpl. rewrite Hlen.
    destruct (TOTAL_SLOTS <=? k) eqn:Hle; [apply Z.leb_le in Hle; lia|].
    now rewrite andb_false_r.
  - rewrite length_app; simpl. lia.
  - rewrite fmap_app. apply NoDup_app. split; [assumption|]. split.
    + intros x Hx Hx'. apply list_elem_of_fmap in Hx as (r' & -> & Hr').
      simpl in Hx'. apply list_elem_of_singleton in Hx'.
      apply (Hfresh r' Hr'). congruence.
    + simpl. apply NoDup_singleton.
  - intros r' Hr'. apply elem_of_app in Hr' as [Hr'|Hr'].
    + destruct (Hfwd r' Hr') as (i & Hi & Hsl & Hc). exists i.
      split; [assumption|]. split; [assumption|].
      rewrite arrayGet_arraySet_ne; [assumption|].
      intros Heq. inversion Heq; subst. apply (Hfresh r' Hr'). assumption.
    + apply list_elem_of_singleton in Hr' as ->. exists k.
      split; [assumption|]. split; [assumption|]. apply arrayGet_arraySet_eq.
  - intros i c Hi Hc. destruct (decide (i = k)) as [->|Hne].
    + rewrite arrayGet_arraySet_eq in Hc. inversion Hc; subst.
      exists r. split; [apply elem_of_app; right; now apply list_elem_of_singleton|].
      split; [assumption | reflexivity].
    + rewrite arrayGet_arraySet_ne in Hc by congruence.
      destruct (Hbwd i c Hi Hc) as (r' & Hr' & Hsl & Hoc).
      exists r'. split; [apply elem_of_app; now left|]. now split.
Qed.

(** Removing a reservation and resetting its cell. *)
Lemma mirrored_remove p l1 l2 r :
  mirrored p (l1 ++ r :: l2) ->
  exists i, 0 <= i < TOTAL_SLOTS /\ r_slot r = Js.Num (i + 1)
    /\ mirrored (arraySet p (Js.Num i) None) (l1 ++ l2).
Proof.
  intros (Hlen & Hsize & Hnd & Hfwd & Hbwd).
  destruct (Hfwd r) as (i & Hi & Hsl & Hc).
  { apply elem_of_app; right; left. }
  exists i. split; [assumption|]. split; [assumption|].
  rewrite fmap_app, fmap_cons in Hnd.
  apply NoDup_app in Hnd as (Hnd1 & Hdisj & Hnd2).
  apply NoDup_cons in Hnd2 as (Hr2 & Hnd2).
  assert (Hother : forall r', r' ∈ l1 ++ l2 -> r_slot r' <> r_slot r).
  { intros r' Hr' Heq. apply elem_of_app in Hr' as [Hr'|Hr'].
    - apply (Hdisj (r_slot r')); [now apply list_elem_of_fmap_2|].
      rewrite Heq. left.
    - apply Hr2. rewrite <- Heq. now apply list_elem_of_fmap_2. }
  unfold mirrored. split; [|split; [|split; [|split]]].
  - unfold arraySet; simpl. rewrite Hlen.
    destruct (TOTAL_SLOTS <=? i) eqn:Hle; [apply Z.leb_le in Hle; lia|].
    now rewrite andb_false_r.
  - rewrite length_app in *. simpl in Hsize. lia.
  - rewrite fmap_app. apply NoDup_app. split; [assumption|]. split; [|assumption].
    intros x Hx Hx'. apply (Hdisj x Hx). now right.
  - intros r' Hr'. destruct (Hfwd r') as (j & Hj & Hslj & Hcj).
    { apply elem_of_app in Hr' as [?|?]; apply elem_of_app; [now left | right; now right]. }
    exists j. split; [assumption|]. split; [assumption|].
    rewrite arrayGet_arraySet_ne; [assumption|].
    intros Heq. inversion Heq; subst. apply (Hother r' Hr'). congruence.
  - intros j c Hj Hcj. destruct (decide (j = i)) as [->|Hne].
    + rewrite arrayGet_arraySet_eq in Hcj. discriminate.
    + rewrite arrayGet_arraySet_ne in Hcj by congruence.
      destruct (Hbwd j c Hj Hcj) as (r' & Hr' & Hslj & Hoc).
      exists r'. split; [|now split].
      apply elem_of_app in Hr' as [?|Hr']; [apply elem_of_app; now left|].
      apply elem_of_cons in Hr' as [->|?]; [|apply elem_of_app; now right].
      exfalso. rewrite Hsl in Hslj. inversion Hslj. lia.
Qed.

(** The index the slot resolution yields for a readable choice: [-1], or a
    cell of the SlotTable that holds no occupant. *)
Lemma resolveSlot_index s chosenSlot si :
  arr_length (parkingSlots s) = TOTAL_SLOTS ->
  readableChoice chosenSlot ->
  resolveSlot s chosenSlot = inr si ->
  si = Js.Num (-1)
  \/ exists k, si = Js.Num k /\ 0 <= k < TOTAL_SLOTS
               /\ truthy (arrayGet (parkingSlots s) (Js.Num k)) = false.
Proof.
  intros Hlen Hread. unfold resolveSlot.
  destruct (String.eqb chosenSlot "auto") eqn:Hauto.
  - intros H; inversion H; subst. unfold findIndexNull.
    destruct (findNullFrom_spec (parkingSlots s) (Z.to_nat (arr_length (parkingSlots s))) 0
                ltac:(lia)) as [[Hr _] | (k & Hr & Hk & Hnk & _)].
    + now left.
    + right. exists k. split; [assumption|]. rewrite Hlen in Hk.
      split; [unfold TOTAL_SLOTS in *; lia|].
      apply isNull_spec in Hnk. now rewrite Hnk.
  - destruct Hread as [->|Hnum]; [discriminate|].
    destruct (Js.parseInt chosenSlot) as [n|]; [|congruence]. simpl.
    destruct (n - 1 <? 0) eqn:H0; [discriminate|].
    destruct (TOTAL_SLOTS <=? n - 1) eqn:H1; [discriminate|]. simpl.
    destruct (truthy _) eqn:Ht; [discriminate|].
    intros H; inversion H; subst. right. exists (n - 1).
    apply Z.ltb_ge in H0. apply Z.leb_gt in H1. auto.
Qed.

Lemma insert_preserves_mirrored e plate chosenSlot s :
  readableChoice chosenSlot ->
  mirrored (parkingSlots s) (arrayList s) ->
  let s' := snd (insertReservation e plate chosenSlot s) in
  mirrored (parkingSlots s') (arrayList s').
Proof.
  intros Hread Hm. cbv zeta.
  destruct (decide (validPlate plate)) as [Hv|Hv];
    [|now rewrite insert_invalid].
  destruct (decide (plateInSystem (Js.trim plate) s)) as [Hd|Hd];
    [now rewrite insert_duplicate|].
  rewrite insert_accepted by assumption. cbv zeta.
  destruct (TOTAL_SLOTS <=? _) eqn:Hfull; [assumption|].
  apply Z.leb_gt in Hfull.
  destruct (resolveSlot s chosenSlot) as [err|si] eqn:Hres; [assumption|].
  destruct (resolveSlot_index s chosenSlot si (proj1 Hm) Hread Hres)
    as [-> | (k & -> & Hk & Hfree)]; [assumption|].
  simpl Js.strictEq.
  destruct (k =? -1) eqn:Hk1; [apply Z.eqb_eq in Hk1; lia|].
  simpl.
  apply (mirrored_add _ _ k
           (mkReservation (Js.trim plate) (Js.Num (k + 1)) (nowString e) (mintId e)));
    auto.
Qed.

Lemma delete_preserves_mirrored e id s :
  mirrored (parkingSlots s) (arrayList s) ->
  let s' := snd (deleteReservation e id s) in
  mirrored (parkingSlots s') (arrayList s').
Proof.
  intros Hm. cbv zeta.
  destruct (list_find (fun r => r_id r = id) (arrayList s)) as [[idx r]|] eqn:Hfind.
  - apply firstWithId_find in Hfind as Hfirst.
    rewrite (delete_found e id s idx r Hfirst). cbv zeta.
    destruct Hfirst as (Hidx & _ & _).
    rewrite delete_take_drop.
    rewrite <- (take_drop_middle _ _ _ Hidx) in Hm.
    pose proof (proj1 (proj2 Hm)) as Hsize.
    destruct (mirrored_remove _ _ _ _ Hm) as (i & Hi & Hsl & Hm').
    rewrite Hsl. simpl Js.sub. replace (i + 1 - 1) with i by lia.
    destruct (queue s) as [|next rest]; simpl; [assumption|].
    apply (mirrored_add _ _ i
             (mkReservation (o_plate next) (Js.Num (i + 1)) (nowString e) (mintId e)));
      auto.
    + now rewrite arrayGet_arraySet_eq.
    + rewrite length_app in *. simpl in Hsize. lia.
  - unfold deleteReservation. now rewrite Hfind.
Qed.

Lemma run_preserves_mirrored ops : forall s,
  Forall readableOp ops ->
  mirrored (parkingSlots s) (arrayList s) ->
  mirrored (parkingSlots (run ops s)) (arrayList (run ops s)).
Proof.
  induction ops as [|op ops IH]; intros s Hops Hm; [assumption|].
  apply Forall_cons in Hops as [Hop Hops].
  simpl. apply IH; [assumption|].
  destruct op as [e plate chosenSlot | e id]; simpl.
  - now apply insert_preserves_mirrored.
  - now apply delete_preserves_mirrored.
Qed.

(** The form the operations preserve gives the invariant in the words of
    the data model. *)
Lemma mirrored_consistent s :
  mirrored (parkingSlots s) (arrayList s) -> consistent s.
Proof.
  intros (Hlen & Hsize & Hnd & Hfwd & Hbwd).
  split; [assumption|]. split.
  - intros i c Hi Hc.
    destruct (Hbwd i c Hi Hc) as (r & Hr & Hsl & Hoc).
    apply list_elem_of_lookup_1 in Hr as [k Hk].
    exists k. split; [now exists r|].
    intros k' (r' & Hk' & Hsl' & _).
    apply (NoDup_lookup (r_slot <$> arrayList s) k k' (Js.Num (i + 1)) Hnd).
    + now rewrite list_lookup_fmap, Hk; simpl; rewrite Hsl.
    + now rewrite list_lookup_fmap, Hk'; simpl; rewrite Hsl'.
  - intros k r Hk.
    destruct (Hfwd r) as (i & Hi & Hsl & Hc); [now apply list_elem_of_lookup_2 in Hk|].
    exists i. split; [auto|].
    intros i' (_ & Hsl' & _). rewrite Hsl in Hsl'. inversion Hsl'. lia.
Qed.

(** Along every run from the initial state whose slot choices are all
    readable, the list never exceeds [TOTAL_SLOTS] records and the SlotTable
    and the list are in bijection. *)
Lemma readable_runs_consistent ops :
  Forall readableOp ops -> consistent (run ops initialState).
Proof.
  intros Hops. apply mirrored_consistent, run_preserves_mirrored; [assumption|].
  apply mirrored_initial.
Qed.

End Mirror.

(** Whatever the slot choices, the list never holds more than
    [TOTAL_SLOTS] reservations. *)
Lemma run_length_bound ops :
  Z.of_nat (length (arrayList (run ops initialState))) <= TOTAL_SLOTS.
Proof.
  assert (H : forall s, Z.of_nat (length (arrayList s)) <= TOTAL_SLOTS ->
                        Z.of_nat (length (arrayList (run ops s))) <= TOTAL_SLOTS).
  { induction ops as [|op ops IH]; intros s Hs; [assumption|].
    cbn [run fold_left]. apply IH.
    destruct op as [e plate chosenSlot | e id]; cbn [step].
    - unfold insertReservation.
      destruct (_ || _); [assumption|].
      destruct (_ || _); [assumption|].
      destruct (TOTAL_SLOTS <=? _) eqn:Hfull; [assumption|].
      apply Z.leb_gt in Hfull.
      destruct (resolveSlot s chosenSlot); [assumption|].
      destruct (Js.strictEq _ _); [assumption|].
      cbn [snd arrayList]. rewrite length_app. simpl. lia.
    - unfold deleteReservation.
      destruct (list_find _ _) as [[idx r]|] eqn:Hfind; [|assumption].
      apply list_find_Some in Hfind as (Hidx & _).
      pose proof (length_delete (arrayList s) idx (ex_intro _ r Hidx)) as Hdel.
      apply lookup_lt_Some in Hidx.
      destruct (queue s); cbn [snd arrayList]; [lia|].
      rewrite length_app. simpl. lia. }
  apply H. simpl. unfold TOTAL_SLOTS. lia.
Qed.

(** ** A slot choice that is not a number *)

Lemma fill_lookup_elem (l : list Z) i :
  i ∈ l ->
  foldr (fun i m => <[Js.Num i := None]> m) (∅ : gmap Js.number (option Occupant)) l
    !! Js.Num i = Some None.
Proof.
  induction l as [|j l IH]; intros Hi; [inversion Hi|].
  simpl. rewrite lookup_insert. case_decide; [reflexivity|].
  apply IH. apply elem_of_cons in Hi as [->|Hi]; [congruence | assumption].
Qed.

Lemma initial_cells_empty i :
  0 <= i < TOTAL_SLOTS -> cellEmpty initialState i.
Proof.
  intros Hi. unfold cellEmpty, cell, arrayGet.
  apply (fill_lookup_elem (seqZ 0 TOTAL_SLOTS) i). apply elem_of_seqZ. lia.
Qed.

(** When the slot choice is neither "auto" nor text that [parseInt] reads
    as a number, the index is NaN: neither range test holds, the property
    "NaN" of the array is read, and unless it holds an occupant the call
    reserves slot NaN. *)
Lemma insert_unreadable_choice (e : Env) (plate chosenSlot : string) (s : State) :
  validPlate plate ->
  ~ plateInSystem (Js.trim plate) s ->
  Z.of_nat (length (arrayList s)) < TOTAL_SLOTS ->
  chosenSlot <> "auto" ->
  Js.parseInt chosenSlot = Js.NaN ->
  truthy (arrayGet (parkingSlots s) Js.NaN) = false ->
  insertReservation e plate chosenSlot s =
  (Reserved Js.NaN (mintId e) (nowString e),
   {| parkingSlots :=
        arraySet (parkingSlots s) Js.NaN
                 (Some (mkOccupant (Js.trim plate) (nowString e) (mintId e)));
      arrayList :=
        arrayList s ++ [mkReservation (Js.trim plate) Js.NaN (nowString e) (mintId e)];
      queue := queue s |}).
Proof.
  intros Hv Hd Hlen Hauto Hparse Hfree.
  rewrite insert_accepted by assumption. cbv zeta.
  destruct (TOTAL_SLOTS <=? _) eqn:Hfull; [apply Z.leb_le in Hfull; lia|].
  unfold resolveSlot. apply String.eqb_neq in Hauto.
  rewrite Hauto, Hparse. simpl. now rewrite Hfree.
Qed.

(** C6.  On the empty lot, the explicit slot choice "abc" is not a slot
    number, yet the call does not end as [InvalidSlotError]: it ends as
    [Reserved] with slot NaN, and a reservation with slot NaN is appended to
    [arrayList]. *)
Theorem insert_unreadable_choice_not_rejected :
  Js.parseInt "abc" = Js.NaN
  /\ fst (insertReservation (envAt 1) "ABC123" "abc" initialState)
     = Reserved Js.NaN (mintId (envAt 1)) (nowString (envAt 1))
  /\ fst (insertReservation (envAt 1) "ABC123" "abc" initialState) <> InvalidSlotError
  /\ arrayList (snd (insertReservation (envAt 1) "ABC123" "abc" initialState))
     = [mkReservation "ABC123" Js.NaN (nowString (envAt 1)) (mintId (envAt 1))]
  /\ arrayList (snd (insertReservation (envAt 1) "ABC123" "abc" initialState))
     <> arrayList initialState.
Proof.
  assert (H : insertReservation (envAt 1) "ABC123" "abc" initialState =
    (Reserved Js.NaN (mintId (envAt 1)) (nowString (envAt 1)),
     {| parkingSlots :=
          arraySet (parkingSlots initialState) Js.NaN
            (Some (mkOccupant "ABC123" (nowString (envAt 1)) (mintId (envAt 1))));
        arrayList := [mkReservation "ABC123" Js.NaN (nowString (envAt 1)) (mintId (envAt 1))];
        queue := [] |})).
  { apply (insert_unreadable_choice (envAt 1) "ABC123" "abc" initialState).
    - unfold validPlate. discriminate.
    - intros [H|H]; inversion H.
    - simpl. unfold TOTAL_SLOTS. lia.
    - discriminate.
    - reflexivity.
    - reflexivity. }
  rewrite H. simpl. repeat split; discriminate.
Qed.

(** C1.  From the initial state, the single call
    [insertReservation("ABC123", "abc")] leaves a reservation with slot NaN
    in [arrayList] while every cell of the SlotTable is still empty: that
    reservation has no cell, so the bijection does not hold. *)
Theorem unreadable_choice_breaks_bijection :
  arrayList lotWithUnreadableChoice
  = [mkReservation "ABC123" Js.NaN (nowString (envAt 1)) (mintId (envAt 1))]
  /\ (forall i, 0 <= i < TOTAL_SLOTS -> cellEmpty lotWithUnreadableChoice i)
  /\ ~ bijection lotWithUnreadableChoice
  /\ ~ consistent lotWithUnreadableChoice.
Proof.
  assert (Hl : arrayList lotWithUnreadableChoice
    = [mkReservation "ABC123" Js.NaN (nowString (envAt 1)) (mintId (envAt 1))])
    by reflexivity.
  assert (Hb : ~ bijection lotWithUnreadableChoice).
  { intros [_ Hback].
    destruct (Hback 0%nat _ (f_equal (fun l => l !! 0%nat) Hl)) as (i & (_ & Hslot & _) & _).
    discriminate. }
  split; [exact Hl|]. split; [|split; [exact Hb | intros [_ H]; exact (Hb H)]].
  intros i Hi.
  change (arrayGet (arraySet (parkingSlots initialState) Js.NaN
            (Some (mkOccupant "ABC123" (nowString (envAt 1)) (mintId (envAt 1)))))
            (Js.Num i) = Some None).
  rewrite arrayGet_arraySet_ne by discriminate.
  now apply initial_cells_empty.
Qed.

(** ** The theorems at work on the sample runs *)

Ltac by_evaluation := apply (bool_decide_unpack _); vm_compute; exact I.

Lemma insert_duplicate_rejected_witness :
  (validPlate "  abc 123 " /\ plateInSystem (Js.trim "  abc 123 ") lotOfThree
   /\ insertReservation (envAt 4) "  abc 123 " "7" lotOfThree = (DuplicateError, lotOfThree))
  /\ (platesTrimmed lotOfThree /\ plateInSystem "KIA-44" lotOfThree
      /\ insertReservation (envAt 4) "KIA-44" "auto" lotOfThree = (DuplicateError, lotOfThree)).
Proof.
  assert (Hv : validPlate "  abc 123 ") by by_evaluation.
  assert (Hd : plateInSystem (Js.trim "  abc 123 ") lotOfThree) by by_evaluation.
  assert (Hp : platesTrimmed lotOfThree) by by_evaluation.
  assert (Hk : plateInSystem "KIA-44" lotOfThree) by by_evaluation.
  split.
  - split; [exact Hv|]. split; [exact Hd|].
    exact (proj1 (insert_duplicate_rejected (envAt 4) "  abc 123 " "7" lotOfThree) Hv Hd).
  - split; [exact Hp|]. split; [exact Hk|].
    exact (proj2 (insert_duplicate_rejected (envAt 4) "KIA-44" "auto" lotOfThree) Hp Hk).
Defined.

Lemma insert_full_enqueues_witness :
  validPlate " late-1 "
  /\ ~ plateInSystem (Js.trim " late-1 ") fullLot
  /\ Z.of_nat (length (arrayList fullLot)) = TOTAL_SLOTS
  /\ insertReservation (envAt 21) " late-1 " "7" fullLot =
     (Queued,
      {| parkingSlots := parkingSlots fullLot;
         arrayList := arrayList fullLot;
         queue := queue fullLot ++
                  [mkOccupant (Js.trim " late-1 ") (nowString (envAt 21)) (mintId (envAt 21))] |}).
Proof.
  assert (Hv : validPlate " late-1 ") by by_evaluation.
  assert (Hd : ~ plateInSystem (Js.trim " late-1 ") fullLot) by by_evaluation.
  assert (Hn : Z.of_nat (length (arrayList fullLot)) = TOTAL_SLOTS) by by_evaluation.
  split; [exact Hv|]. split; [exact Hd|]. split; [exact Hn|].
  exact (insert_full_enqueues (envAt 21) " late-1 " "7" fullLot Hv Hd Hn).
Defined.

Lemma insert_auto_lowest_free_witness :
  validPlate "New 1"
  /\ ~ plateInSystem (Js.trim "New 1") lotOfThree
  /\ Z.of_nat (length (arrayList lotOfThree)) < TOTAL_SLOTS
  /\ TOTAL_SLOTS <= arr_length (parkingSlots lotOfThree)
  /\ (exists i, 0 <= i < TOTAL_SLOTS /\ cellEmpty lotOfThree i)
  /\ exists i0,
      (0 <= i0 < TOTAL_SLOTS /\ cellEmpty lotOfThree i0
       /\ forall j, 0 <= j < i0 -> ~ cellEmpty lotOfThree j)
      /\ insertReservation (envAt 4) "New 1" "auto" lotOfThree =
         (Reserved (Js.Num (i0 + 1)) (mintId (envAt 4)) (nowString (envAt 4)),
          {| parkingSlots :=
               arraySet (parkingSlots lotOfThree) (Js.Num i0)
                 (Some (mkOccupant (Js.trim "New 1") (nowString (envAt 4)) (mintId (envAt 4))));
             arrayList :=
               arrayList lotOfThree ++
               [mkReservation (Js.trim "New 1") (Js.Num (i0 + 1))
                  (nowString (envAt 4)) (mintId (envAt 4))];
             queue := queue lotOfThree |}).
Proof.
  assert (Hv : validPlate "New 1") by by_evaluation.
  assert (Hd : ~ plateInSystem (Js.trim "New 1") lotOfThree) by by_evaluation.
  assert (Hn : Z.of_nat (length (arrayList lotOfThree)) < TOTAL_SLOTS) by by_evaluation.
  assert (Ha : TOTAL_SLOTS <= arr_length (parkingSlots lotOfThree)) by by_evaluation.
  assert (He : exists i, 0 <= i < TOTAL_SLOTS /\ cellEmpty lotOfThree i).
  { exists 7. split; [unfold TOTAL_SLOTS; lia | reflexivity]. }
  split; [exact Hv|]. split; [exact Hd|]. split; [exact Hn|]. split; [exact Ha|].
  split; [exact He|].
  exact (insert_auto_lowest_free (envAt 4) "New 1" lotOfThree Hv Hd Hn Ha He).
Defined.

Lemma delete_absent_noop_witness :
  Forall (fun r => r_id r <> "id0") (arrayList lotOfThree)
  /\ deleteReservation (envAt 4) "id0" lotOfThree = (NotFound, lotOfThree).
Proof.
  assert (H : Forall (fun r => r_id r <> "id0") (arrayList lotOfThree)) by by_evaluation.
  split; [exact H|].
  exact (delete_absent_noop (envAt 4) "id0" lotOfThree H).
Defined.



Lemma new_reservation_at_tail_witness :
  (let s' := snd (insertReservation (envAt 4) " New 1" "auto" lotOfThree) in
   insertReservation (envAt 4) " New 1" "auto" lotOfThree
   = (Reserved (Js.Num 4) (mintId (envAt 4)) (nowString (envAt 4)), s')
   /\ arrayList s' =
      arrayList lotOfThree ++
      [mkReservation (Js.trim " New 1") (Js.Num 4) (nowString (envAt 4)) (mintId (envAt 4))])
  /\ (let s' := snd (deleteReservation (envAt 30) (mintId (envAt 2)) fullLotQueued) in
      deleteReservation (envAt 30) (mintId (envAt 2)) fullLotQueued
      = (Deleted (Some ("wait-1", Js.Num 2)), s')
      /\ exists idx r,
          firstWithId (mintId (envAt 2)) fullLotQueued idx r
          /\ arrayList s' =
             delete idx (arrayList fullLotQueued) ++
             [mkReservation "wait-1" (Js.Num 2) (nowString (envAt 30)) (mintId (envAt 30))]).
Proof.
  split; intros s'.
  - assert (H : insertReservation (envAt 4) " New 1" "auto" lotOfThree
                = (Reserved (Js.Num 4) (mintId (envAt 4)) (nowString (envAt 4)), s'))
      by (vm_compute; reflexivity).
    split; [exact H|].
    exact (proj1 (new_reservation_at_tail (envAt 4) lotOfThree) _ _ _ _ _ _ H).
  - assert (H : deleteReservation (envAt 30) (mintId (envAt 2)) fullLotQueued
                = (Deleted (Some ("wait-1", Js.Num 2)), s'))
      by (vm_compute; reflexivity).
    split; [exact H|].
    exact (proj2 (new_reservation_at_tail (envAt 30) fullLotQueued) _ _ _ _ H).
Defined.

Lemma sortBySlot_sorted_stable_idempotent_witness :
  numericSlots (arrayList lotOfThree)
  /\ nonDecreasing (arrayList (sortBySlot lotOfThree))
  /\ (forall k, withSlot k (arrayList (sortBySlot lotOfThree)) = withSlot k (arrayList lotOfThree))
  /\ arrayList (sortBySlot lotOfThree) ≡ₚ arrayList lotOfThree
  /\ sortBySlot (sortBySlot lotOfThree) = sortBySlot lotOfThree.
Proof.
  assert (H : numericSlots (arrayList lotOfThree)) by by_evaluation.
  split; [exact H|].
  exact (sortBySlot_sorted_stable_idempotent lotOfThree H).
Defined.

Lemma search_returns_matches_witness :
  (Js.trim "   " = ""
   /\ search "   " lotOfThree = Cleared /\ resultSet (search "   " lotOfThree) = [])
  /\ (Js.trim " 3 " <> ""
      /\ resultSet (search " 3 " lotOfThree)
         = filter (matchesTerm (Js.trim " 3 ")) (arrayList lotOfThree)).
Proof.
  split.
  - assert (H : Js.trim "   " = "") by reflexivity.
    split; [exact H|].
    exact (proj1 (search_returns_matches "   " lotOfThree) H).
  - assert (H : Js.trim " 3 " <> "") by by_evaluation.
    split; [exact H|].
    exact (proj1 (proj2 (search_returns_matches " 3 " lotOfThree)) H).
Defined.

(** ** Worked examples *)

Example trim_ex : Js.trim "  ab c	 " = "ab c".
Proof. reflexivity. Qed.

Example parseInt_ex : 
  Js.parseInt " 12px" = Js.Num 12 /\ Js.parseInt "-3" = Js.Num (-3)
  /\ Js.parseInt "abc" = Js.NaN /\ Js.parseInt "" = Js.NaN /\ Js.parseInt "Auto" = Js.NaN.
Proof. repeat split; reflexivity. Qed.

Example toString_ex :
  Js.toString (Js.Num 17) = "17" /\ Js.toString (Js.Num (-4)) = "-4"
  /\ Js.toString (Js.Num 0) = "0".
Proof. repeat split; reflexivity. Qed.

Example toLowerCase_ex : Js.toLowerCase "AbC 12z" = "abc 12z".
Proof. reflexivity. Qed.

Example mintId_ex : mintId (envAt 7) = "id17658468000077".
Proof. reflexivity. Qed.

(** The slots of [lotOfThree] in list order, and after [sortBySlot]. *)
Example lotOfThree_slots :
  r_slot <$> arrayList lotOfThree = [Js.Num 1; Js.Num 3; Js.Num 2]
  /\ r_slot <$> arrayList (sortBySlot lotOfThree) = [Js.Num 1; Js.Num 2; Js.Num 3].
Proof. split; vm_compute; reflexivity. Qed.

(** "3" finds the plate that contains it and the record at slot 3, in list
    order; "kia" finds the plate whatever its letter case. *)
Example search_ex :
  r_plate <$> resultSet (search "3" lotOfThree) = ["ABC 123"; "xyz789"]
  /\ r_plate <$> resultSet (search " kia " lotOfThree) = ["Kia-44"]
  /\ search "q" lotOfThree = NoneFound.
Proof. repeat split; vm_compute; reflexivity. Qed.

(** Explicit choices that read as numbers are checked. *)
Example explicit_choice_ex :
  fst (insertReservation (envAt 4) "N1" "0" lotOfThree) = InvalidSlotError
  /\ fst (insertReservation (envAt 4) "N1" "21" lotOfThree) = InvalidSlotError
  /\ fst (insertReservation (envAt 4) "N1" "3" lotOfThree) = SlotOccupiedError
  /\ fst (insertReservation (envAt 4) "N1" "20" lotOfThree)
     = Reserved (Js.Num 20) (mintId (envAt 4)) (nowString (envAt 4)).
Proof. repeat split; vm_compute; reflexivity. Qed.

(** After the unreadable choice, nineteen more reservations fill
    [arrayList], and the next request is queued although cell 19 is empty. *)
Example unreadable_choice_then_full :
  let s := run (Insert (envAt 1) "ABC123" "abc" ::
                ((fun n => Insert (envAt n) ("CAR" ++ Js.toString (Js.Num n))%string "auto")
                   <$> seqZ 2 19)) initialState in
  fst (insertReservation (envAt 40) "LAST" "auto" s) = Queued
  /\ cell s 19 = Some None.
Proof. split; vm_compute; reflexivity. Qed.

(** * More of the page *)

(** ** One call of the engine *)

(** How a call that ends as [Reserved] got there. *)
Lemma insert_reserved_inv e plate chosenSlot s slot id time s1 :
  insertReservation e plate chosenSlot s = (Reserved slot id time, s1) ->
  validPlate plate /\ ~ plateInSystem (Js.trim plate) s
  /\ Z.of_nat (length (arrayList s)) < TOTAL_SLOTS
  /\ id = mintId e /\ time = nowString e
  /\ exists k, resolveSlot s chosenSlot = inr k
       /\ Js.strictEq k (Js.Num (-1)) = false
       /\ slot = Js.add k (Js.Num 1)
       /\ s1 = mkState (arraySet (parkingSlots s) k
                          (Some (mkOccupant (Js.trim plate) time id)))
                       (arrayList s ++ [mkReservation (Js.trim plate) slot time id])
                       (queue s).
Proof.
  destruct (decide (validPlate plate)) as [Hv|Hv];
    [|rewrite insert_invalid by assumption; discriminate].
  destruct (decide (plateInSystem (Js.trim plate) s)) as [Hd|Hd];
    [rewrite insert_duplicate by assumption; discriminate|].
  rewrite insert_accepted by assumption. cbv zeta.
  destruct (TOTAL_SLOTS <=? _) eqn:Hfull; [discriminate|].
  apply Z.leb_gt in Hfull.
  destruct (resolveSlot s chosenSlot) as [err|k] eqn:Hres.
  - apply resolveSlot_error in Hres as [-> | ->]; discriminate.
  - destruct (Js.strictEq k (Js.Num (-1))) eqn:Hk; [discriminate|].
    intros H. injection H as <- <- <- <-.
    repeat (split; [assumption || reflexivity|]).
    exists k. auto.
Qed.

(** X1.  [insertReservation] ends as [ValidationError] exactly when the
    plate is empty once trimmed, and then it returns the state it was
    given, whatever the slot choice. *)
Theorem insert_blank_plate_refused (e : Env) (plate chosenSlot : string) (s : State) :
  (fst (insertReservation e plate chosenSlot s) = ValidationError <-> Js.trim plate = "")
  /\ (Js.trim plate = "" -> insertReservation e plate chosenSlot s = (ValidationError, s)).
Proof.
  assert (Hblank : Js.trim plate = "" ->
                   insertReservation e plate chosenSlot s = (ValidationError, s)).
  { intros H. apply insert_invalid. unfold validPlate. now intros []. }
  split; [|exact Hblank]. split.
  - intros Hout. destruct (decide (Js.trim plate = "")) as [|Hv]; [assumption|].
    exfalso. revert Hout.
    destruct (decide (plateInSystem (Js.trim plate) s)) as [Hd|Hd];
      [now rewrite insert_duplicate|].
    rewrite insert_accepted by assumption. cbv zeta.
    destruct (TOTAL_SLOTS <=? _); [discriminate|].
    destruct (resolveSlot s chosenSlot) as [err|k] eqn:Hres.
    + apply resolveSlot_error in Hres as [-> | ->]; discriminate.
    + destruct (Js.strictEq _ _); discriminate.
  - intros H. now rewrite Hblank.
Qed.

(** X2.  What one call of [insertReservation] can change: an error
    ([ValidationError], [DuplicateError], [InvalidSlotError],
    [SlotOccupiedError]) returns the state untouched; a queued request only
    adds one entry, with the trimmed plate, at the back of [queue]; a
    reservation only writes one property of [parkingSlots] and adds one
    record at the end of [arrayList].  The queue and the lot never change in
    the same call. *)
Theorem insert_changes_one_side (e : Env) (plate chosenSlot : string) (s : State) :
  let s' := snd (insertReservation e plate chosenSlot s) in
  match fst (insertReservation e plate chosenSlot s) with
  | ValidationError | DuplicateError | InvalidSlotError | SlotOccupiedError => s' = s
  | Queued | QueuedNoSlot =>
      parkingSlots s' = parkingSlots s /\ arrayList s' = arrayList s
      /\ queue s' = queue s ++ [mkOccupant (Js.trim plate) (nowString e) (mintId e)]
  | Reserved slot id time =>
      queue s' = queue s
      /\ arrayList s' = arrayList s ++ [mkReservation (Js.trim plate) slot time id]
      /\ exists k, parkingSlots s' =
                   arraySet (parkingSlots s) k (Some (mkOccupant (Js.trim plate) time id))
  end.
Proof.
  cbv zeta.
  destruct (decide (validPlate plate)) as [Hv|Hv];
    [|now rewrite insert_invalid].
  destruct (decide (plateInSystem (Js.trim plate) s)) as [Hd|Hd];
    [now rewrite insert_duplicate|].
  rewrite insert_accepted by assumption. cbv zeta.
  destruct (TOTAL_SLOTS <=? _); [simpl; auto|].
  destruct (resolveSlot s chosenSlot) as [err|k] eqn:Hres.
  - apply resolveSlot_error in Hres as [-> | ->]; reflexivity.
  - destruct (Js.strictEq _ _); simpl; [auto|].
    split; [reflexivity|]. split; [reflexivity|]. now exists k.
Qed.

(** X3.  With an empty queue, deleting the reservation found at slot [sl]
    vacates it: the record leaves [arrayList], the others keep their order,
    cell [sl - 1] is reset to [null], no other cell changes and the queue
    stays empty. *)
Theorem delete_vacates_slot (e : Env) (id : string) (s : State)
    (idx : nat) (r : Reservation) (sl : Z) :
  firstWithId id s idx r ->
  r_slot r = Js.Num sl ->
  queue s = [] ->
  exists s',
    deleteReservation e id s = (Deleted None, s')
    /\ arrayList s' = delete idx (arrayList s)
    /\ queue s' = []
    /\ cellEmpty s' (sl - 1)
    /\ (forall k, k <> Js.Num (sl - 1) ->
        arrayGet (parkingSlots s') k = arrayGet (parkingSlots s) k).
Proof.
  intros Hfirst Hslot Hq.
  rewrite (delete_found e id s idx r Hfirst), Hq, Hslot. cbv zeta. simpl Js.sub.
  eexists. split; [reflexivity|]. simpl.
  split; [reflexivity|]. split; [reflexivity|]. split.
  - apply arrayGet_arraySet_eq.
  - intros k Hk. now rewrite arrayGet_arraySet_ne by congruence.
Qed.

(** Among records with distinct ids, removing the first record that carries
    an id leaves none that carries it. *)
Lemma delete_first_removes_id (l : list Reservation) idx r :
  NoDup (r_id <$> l) -> l !! idx = Some r ->
  Forall (fun r' => r_id r' <> r_id r) (delete idx l).
Proof.
  intros Hnd Hidx.
  rewrite delete_take_drop.
  rewrite <- (take_drop_middle _ _ _ Hidx) in Hnd.
  rewrite fmap_app, fmap_cons in Hnd.
  apply NoDup_app in Hnd as (_ & Hdisj & Hnd2).
  apply NoDup_cons in Hnd2 as (Hr2 & _).
  apply Forall_app. split; apply Forall_forall; intros r' Hr' Heq.
  - apply (Hdisj (r_id r')); [now apply list_elem_of_fmap_2|]. rewrite Heq. left.
  - apply Hr2. rewrite <- Heq. now apply list_elem_of_fmap_2.
Qed.

(** X4.  Deleting is idempotent: when the reservations carry distinct ids
    and the id the first call may mint for a promoted request is not the
    deleted one, a second call with the same id finds nothing and returns
    the state the first call left. *)
Theorem delete_twice (e e' : Env) (id : string) (s : State) :
  idsDistinct s ->
  mintId e <> id ->
  let s1 := snd (deleteReservation e id s) in
  deleteReservation e' id s1 = (NotFound, s1).
Proof.
  intros Hnd Hmint. cbv zeta.
  assert (Hgone : Forall (fun r => r_id r <> id)
                         (arrayList (snd (deleteReservation e id s)))).
  { destruct (list_find (fun r => r_id r = id) (arrayList s)) as [[idx r]|] eqn:Hfind.
    - apply firstWithId_find in Hfind as Hfirst.
      rewrite (delete_found e id s idx r Hfirst). cbv zeta.
      destruct Hfirst as (Hidx & Hid & _).
      pose proof (delete_first_removes_id _ _ _ Hnd Hidx) as Hdel.
      rewrite Hid in Hdel.
      destruct (queue s); simpl; [assumption|].
      apply Forall_app. split; [assumption|]. now apply Forall_singleton.
    - unfold deleteReservation. rewrite Hfind. simpl.
      now apply (list_find_None (fun r => r_id r = id)). }
  unfold deleteReservation at 1.
  apply (list_find_None (fun r => r_id r = id)) in Hgone. now rewrite Hgone.
Qed.

(** ** Slot numbers written and read back *)

Section Decimal.

Lemma digitsValue_acc d : forall acc,
  Js.digitsValue (Z.pos acc) (NilEmpty.string_of_uint d) = Z.pos (Pos.of_uint_acc d acc).
Proof.
  induction d; intros acc; cbn [NilEmpty.string_of_uint Pos.of_uint_acc Js.digitsValue];
    [reflexivity | change (Js.digitValue _) with (Some 0) | change (Js.digitValue _) with (Some 1)
     | change (Js.digitValue _) with (Some 2) | change (Js.digitValue _) with (Some 3)
     | change (Js.digitValue _) with (Some 4) | change (Js.digitValue _) with (Some 5)
     | change (Js.digitValue _) with (Some 6) | change (Js.digitValue _) with (Some 7)
     | change (Js.digitValue _) with (Some 8) | change (Js.digitValue _) with (Some 9)];
    cbv iota beta; rewrite <- IHd; f_equal; lia.
Qed.

Lemma digitsValue_uint d :
  Js.digitsValue 0 (NilEmpty.string_of_uint d) = Z.of_N (Pos.of_uint d).
Proof.
  induction d; cbn [NilEmpty.string_of_uint Pos.of_uint Js.digitsValue];
    [reflexivity | change (Js.digitValue _) with (Some 0) | change (Js.digitValue _) with (Some 1)
     | change (Js.digitValue _) with (Some 2) | change (Js.digitValue _) with (Some 3)
     | change (Js.digitValue _) with (Some 4) | change (Js.digitValue _) with (Some 5)
     | change (Js.digitValue _) with (Some 6) | change (Js.digitValue _) with (Some 7)
     | change (Js.digitValue _) with (Some 8) | change (Js.digitValue _) with (Some 9)];
    cbv iota beta; [exact IHd | apply digitsValue_acc ..].
Qed.

(** Text that begins with a digit is read as the value of its digits. *)
Lemma parseInt_digits c rest v :
  Js.digitValue c = Some v ->
  Js.parseInt (String c rest) = Js.Num (Js.digitsValue 0 (String c rest))
  /\ String.eqb (String c rest) "auto" = false
  /\ Js.trim (String c rest) <> "".
Proof.
  intros Hc.
  destruct c as [[] [] [] [] [] [] [] []]; vm_compute in Hc; try discriminate Hc;
    (split; [|split]).
  all: try (unfold Js.parseInt; cbv -[Js.digitsValue Z.mul];
            rewrite Z.mul_1_l; reflexivity).
  all: try reflexivity.
  all: unfold Js.trim; cbn [Js.trimStart];
       match goal with |- context [Js.isWhiteSpace ?c] =>
         change (Js.isWhiteSpace c) with false end;
       cbv iota; cbn [Js.trimEnd];
       destruct (Js.trimEnd rest); discriminate.
Qed.

Lemma string_of_uint_head d :
  d <> Decimal.Nil ->
  exists c rest v, NilEmpty.string_of_uint d = String c rest /\ Js.digitValue c = Some v.
Proof.
  destruct d; [congruence | ..]; intros _; cbn [NilEmpty.string_of_uint];
    eexists _, _, _; (split; [reflexivity | reflexivity]).
Qed.

Lemma digit_not_space c v : Js.digitValue c = Some v -> Js.isWhiteSpace c = false.
Proof.
  intros Hc.
  destruct c as [[] [] [] [] [] [] [] []]; vm_compute in Hc; try discriminate Hc;
    reflexivity.
Qed.

(** The digits of a positive number, as [String] writes them. *)
Lemma string_of_pos p :
  NilZero.string_of_uint (Pos.to_uint p) = NilEmpty.string_of_uint (Pos.to_uint p)
  /\ Js.digitsValue 0 (NilEmpty.string_of_uint (Pos.to_uint p)) = Z.pos p
  /\ exists c rest v,
       NilEmpty.string_of_uint (Pos.to_uint p) = String c rest
       /\ Js.digitValue c = Some v.
Proof.
  pose proof (Unsigned.to_uint_nonnil p) as Hnil.
  split; [|split].
  - destruct (Pos.to_uint p); [congruence | reflexivity ..].
  - now rewrite digitsValue_uint, Unsigned.of_to.
  - now apply string_of_uint_head.
Qed.

(** [parseInt(String(z), 10)] is [z], for every integer [z]. *)
Lemma parseInt_toString z : Js.parseInt (Js.toString (Js.Num z)) = Js.Num z.
Proof.
  destruct z as [|p|p]; [reflexivity | |];
    destruct (string_of_pos p) as (Hstr & Hval & c & rest & v & Hs & Hc);
    unfold Js.toString, Z.to_int, NilZero.string_of_int; rewrite Hstr.
  - rewrite Hs, (proj1 (parseInt_digits c rest v Hc)), <- Hs, Hval. reflexivity.
  - rewrite Hs. unfold Js.parseInt. cbn [Js.trimStart].
    change (Js.isWhiteSpace "-") with false. cbv iota.
    rewrite Hc, <- Hs, Hval. reflexivity.
Qed.

End Decimal.

(** ** When two minted ids coincide *)

Lemma append_inj_length a : forall c b d,
  String.length a = String.length c ->
  (a ++ b)%string = (c ++ d)%string -> a = c /\ b = d.
Proof.
  induction a as [|x a IH]; intros [|y c] b d Hlen H; try discriminate Hlen.
  - now rewrite !append_empty in H.
  - rewrite !append_String in H. injection H as -> H.
    injection Hlen as Hlen. destruct (IH c b d Hlen H) as [-> ->]. now split.
Qed.

Lemma toString_inj x y : Js.toString (Js.Num x) = Js.toString (Js.Num y) -> x = y.
Proof.
  intros H. apply (f_equal Js.parseInt) in H.
  rewrite !parseInt_toString in H. now injection H.
Qed.

(** Two calls whose clock readings are written with the same number of
    digits mint the same id only when they read the same millisecond and
    draw the same random number. *)
Lemma mintId_collision (e e' : Env) :
  String.length (Js.toString (Js.Num (Date_now e)))
  = String.length (Js.toString (Js.Num (Date_now e'))) ->
  mintId e = mintId e' ->
  Date_now e = Date_now e' /\ random999 e = random999 e'.
Proof.
  intros Hlen H. unfold mintId in H.
  rewrite !append_String, !append_empty in H. injection H as H.
  destruct (append_inj_length _ _ _ _ Hlen H) as [Hd Hr].
  split; now apply toString_inj.
Qed.

Lemma toString_not_auto z : String.eqb (Js.toString (Js.Num z)) "auto" = false.
Proof.
  destruct z as [|p|p]; [reflexivity | | reflexivity].
  destruct (string_of_pos p) as (Hstr & _ & c & rest & v & Hs & Hc).
  unfold Js.toString, Z.to_int, NilZero.string_of_int. rewrite Hstr, Hs.
  apply (parseInt_digits c rest v Hc).
Qed.

(** What the slot resolution yields for the dropdown's option of tile [i]. *)
Lemma resolveSlot_option s i :
  0 <= i < TOTAL_SLOTS ->
  resolveSlot s (Js.toString (Js.Num (i + 1))) =
  if truthy (arrayGet (parkingSlots s) (Js.Num i)) then inl SlotOccupiedError
  else inr (Js.Num i).
Proof.
  intros Hi. unfold resolveSlot.
  rewrite toString_not_auto, parseInt_toString. simpl Js.sub.
  replace (i + 1 - 1) with i by lia. simpl.
  destruct (i <? 0) eqn:H0; [apply Z.ltb_lt in H0; lia|].
  destruct (TOTAL_SLOTS <=? i) eqn:H1; [apply Z.leb_le in H1; lia|].
  reflexivity.
Qed.

(** X5.  The option "Slot i+1" that [renderGrid] puts in the dropdown is
    read back by [insertReservation] as tile [i]: with a valid plate that is
    not in the system and room in the list, choosing it while cell [i] holds
    no occupant reserves exactly slot [i + 1] and writes cell [i]; choosing
    it while cell [i] is occupied ends as [SlotOccupiedError] and changes
    nothing. *)
Theorem dropdown_option_reserves_its_tile (e : Env) (plate : string) (s : State) (i : Z) :
  0 <= i < TOTAL_SLOTS ->
  validPlate plate ->
  ~ plateInSystem (Js.trim plate) s ->
  Z.of_nat (length (arrayList s)) < TOTAL_SLOTS ->
  let option := Js.toString (Js.Num (i + 1)) in
  option ∈ snd (renderGrid s)
  /\ insertReservation e plate option s =
     if truthy (cell s i) then (SlotOccupiedError, s)
     else
       (Reserved (Js.Num (i + 1)) (mintId e) (nowString e),
        {| parkingSlots :=
             arraySet (parkingSlots s) (Js.Num i)
                      (Some (mkOccupant (Js.trim plate) (nowString e) (mintId e)));
           arrayList :=
             arrayList s ++
             [mkReservation (Js.trim plate) (Js.Num (i + 1)) (nowString e) (mintId e)];
           queue := queue s |}).
Proof.
  intros Hi Hv Hd Hlen option. split.
  - change (snd (renderGrid s)) with slotOptions. unfold slotOptions.
    apply elem_of_cons. right.
    apply list_elem_of_fmap. exists i. split; [reflexivity|]. apply elem_of_seqZ. lia.
  - rewrite insert_accepted by assumption. cbv zeta.
    destruct (TOTAL_SLOTS <=? _) eqn:Hfull; [apply Z.leb_le in Hfull; lia|].
    unfold option. rewrite (resolveSlot_option s i Hi). unfold cell.
    destruct (truthy _); [reflexivity|].
    simpl Js.strictEq.
    destruct (i =? -1) eqn:Hm; [apply Z.eqb_eq in Hm; lia|]. reflexivity.
Qed.

(** Every option of the dropdown is a choice the engine can read. *)
Lemma slotOptions_readable c : c ∈ slotOptions -> readableChoice c.
Proof.
  unfold slotOptions. intros Hc. apply elem_of_cons in Hc as [->|Hc]; [now left|].
  apply list_elem_of_fmap in Hc as (i & -> & _). right.
  rewrite parseInt_toString. discriminate.
Qed.

(** ** Insert, then delete or search *)

Lemma arraySet_length_in (a : SlotArray) z v :
  z < arr_length a -> arr_length (arraySet a (Js.Num z) v) = arr_length a.
Proof.
  intros Hz. unfold arraySet; simpl.
  destruct (arr_length a <=? z) eqn:H; [apply Z.leb_le in H; lia|].
  now rewrite andb_false_r.
Qed.

(** An index the slot resolution yields lies inside the array. *)
Lemma resolveSlot_in_array s chosenSlot z :
  TOTAL_SLOTS <= arr_length (parkingSlots s) ->
  resolveSlot s chosenSlot = inr (Js.Num z) ->
  z < arr_length (parkingSlots s).
Proof.
  intros Hlen. unfold resolveSlot.
  destruct (String.eqb chosenSlot "auto").
  - intros H; injection H as H. unfold findIndexNull in H.
    destruct (findNullFrom_spec (parkingSlots s) (Z.to_nat (arr_length (parkingSlots s))) 0
                ltac:(lia)) as [[Hr _] | (k & Hr & Hk & _)];
      rewrite Hr in H; injection H as <-; unfold TOTAL_SLOTS in *; lia.
  - destruct (Js.parseInt chosenSlot) as [n|]; simpl;
      [|destruct (truthy _); discriminate].
    destruct (n - 1 <? 0) eqn:H0; [discriminate|].
    destruct (TOTAL_SLOTS <=? n - 1) eqn:H1; [discriminate|]. simpl.
    destruct (truthy _); [discriminate|].
    intros H; injection H as <-. apply Z.leb_gt in H1. lia.
Qed.

Lemma sub_add_one k : Js.sub (Js.add k (Js.Num 1)) (Js.Num 1) = k.
Proof. destruct k as [z|]; simpl; [f_equal; lia | reflexivity]. Qed.

(** X6.  Insert, then delete, is a round trip: when a call ends as
    [Reserved] in a state with an empty queue, where the cell it takes held
    [null] and the id it mints is carried by no reservation, deleting that
    id gives back exactly the state before the insert. *)
Theorem insert_then_delete_restores (e e' : Env) (plate chosenSlot : string)
    (s s1 : State) (slot : Js.number) (id time : string) :
  insertReservation e plate chosenSlot s = (Reserved slot id time, s1) ->
  queue s = [] ->
  id ∉ (r_id <$> arrayList s) ->
  arrayGet (parkingSlots s) (Js.sub slot (Js.Num 1)) = Some None ->
  TOTAL_SLOTS <= arr_length (parkingSlots s) ->
  deleteReservation e' id s1 = (Deleted None, s).
Proof.
  intros Hins Hq Hfresh Hnull Hlen.
  apply insert_reserved_inv in Hins
    as (_ & _ & _ & _ & _ & k & Hres & Hk & -> & ->).
  rewrite sub_add_one in Hnull.
  assert (Hin : forall z, k = Js.Num z -> z < arr_length (parkingSlots s)).
  { intros z ->. exact (resolveSlot_in_array _ _ _ Hlen Hres). }
  clear Hres.
  set (r := mkReservation (Js.trim plate) (Js.add k (Js.Num 1)) time id).
  assert (Hfind : list_find (fun r => r_id r = id) (arrayList s ++ [r])
                  = Some (length (arrayList s), r)).
  { apply list_find_Some. split; [apply list_lookup_middle; reflexivity|].
    split; [reflexivity|]. intros j y Hj Hlt Hy.
    rewrite lookup_app_l in Hj by assumption.
    apply Hfresh. rewrite <- Hy. apply list_elem_of_fmap_2.
    now apply list_elem_of_lookup_2 in Hj. }
  unfold deleteReservation. cbn [arrayList queue parkingSlots]. rewrite Hfind, Hq.
  cbv zeta. f_equal. subst r. cbn [r_slot]. rewrite sub_add_one.
  destruct s as [p l q]; cbn [arrayList queue parkingSlots] in *. subst q.
  f_equal.
  - destruct p as [len m]. unfold arraySet; cbn [arr_length arr_props] in *. f_equal.
    + destruct k as [z|]; [|reflexivity].
      pose proof (Hin z eq_refl) as Hz.
      destruct (len <=? z) eqn:H1; [apply Z.leb_le in H1; lia|].
      rewrite !andb_false_r.
      destruct (len <=? z) eqn:H2; [congruence|]. now rewrite andb_false_r.
    + rewrite insert_insert_eq. now apply insert_id.
  - etransitivity; [apply (delete_middle l []) | apply app_nil_r].
Qed.

Lemma search_nonblank term s :
  Js.trim term <> "" ->
  resultSet (search term s) = filter (matchesTerm (Js.trim term)) (arrayList s).
Proof.
  intros Ht. unfold search. cbv zeta.
  apply String.eqb_neq in Ht. rewrite Ht.
  rewrite push_matches_filter, app_nil_l.
  destruct (Nat.eqb (length (arrayList s)) 0) eqn:Hlen.
  - apply Nat.eqb_eq, nil_length_inv in Hlen. now rewrite Hlen.
  - destruct (filter _ _); reflexivity.
Qed.

Lemma append_nil_r s : (s ++ "")%string = s.
Proof. induction s as [|c s IH]; [reflexivity|]. now rewrite append_String, IH. Qed.

Lemma isSubstring_refl s : isSubstring s s.
Proof. exists "", "". now rewrite append_empty, append_nil_r. Qed.

Lemma trimEnd_string_of_uint d :
  Js.trimEnd (NilEmpty.string_of_uint d) = NilEmpty.string_of_uint d.
Proof.
  induction d; cbn [NilEmpty.string_of_uint Js.trimEnd]; [reflexivity | ..];
    rewrite IHd; destruct (NilEmpty.string_of_uint d); reflexivity.
Qed.

(** The decimal rendering of a number has no white space to trim. *)
Lemma trim_toString n : Js.trim (Js.toString n) = Js.toString n /\ Js.toString n <> "".
Proof.
  destruct n as [[|p|p]|]; try (split; [reflexivity | discriminate]);
    destruct (string_of_pos p) as (Hstr & _ & c & rest & v & Hs & Hc);
    pose proof (trimEnd_string_of_uint (Pos.to_uint p)) as Hend;
    pose proof (digit_not_space c v Hc) as Hws;
    unfold Js.toString, Z.to_int, NilZero.string_of_int; rewrite Hstr;
    unfold Js.trim.
  - rewrite Hs in *. cbn [Js.trimStart]. rewrite Hws. split; [exact Hend | discriminate].
  - cbn [Js.trimStart]. change (Js.isWhiteSpace "-") with false. cbv iota.
    cbn [Js.trimEnd]. rewrite Hend, Hs. split; [reflexivity | discriminate].
Qed.

(** X7.  What was just reserved can be found: after a call that ends as
    [Reserved], searching for the plate as it was typed, or for the slot
    number as it is displayed, shows the new reservation among the
    results. *)
Theorem search_finds_new_reservation (e : Env) (plate chosenSlot : string)
    (s s1 : State) (slot : Js.number) (id time : string) :
  insertReservation e plate chosenSlot s = (Reserved slot id time, s1) ->
  mkReservation (Js.trim plate) slot time id ∈ resultSet (search plate s1)
  /\ mkReservation (Js.trim plate) slot time id
     ∈ resultSet (search (Js.toString slot) s1).
Proof.
  intros Hins.
  apply insert_reserved_inv in Hins
    as (Hv & _ & _ & _ & _ & k & _ & _ & Hslot & ->).
  destruct (trim_toString slot) as [Htrim Hne].
  split.
  - rewrite search_nonblank by exact Hv.
    apply list_elem_of_filter. split.
    + left. apply isSubstring_refl.
    + cbn [arrayList]. apply elem_of_app. right. now apply list_elem_of_singleton.
  - rewrite search_nonblank by (rewrite Htrim; exact Hne).
    apply list_elem_of_filter. split.
    + right. cbn [r_slot]. now rewrite Htrim.
    + cbn [arrayList]. apply elem_of_app. right. now apply list_elem_of_singleton.
Qed.

(** ** Page sessions *)

Section Sessions.

(** The tiles drawn as occupied are those the reservations point to. *)
Lemma mirrored_occupied p l :
  mirrored p l -> occupiedCells p ≡ₚ (tileOf <$> (r_slot <$> l)).
Proof.
  intros (Hlen & Hsize & Hnd & Hfwd & Hbwd).
  apply NoDup_Permutation.
  - apply NoDup_filter, NoDup_seqZ.
  - apply NoDup_fmap_2_strong; [|assumption].
    intros x y Hx Hy Heq.
    apply list_elem_of_fmap in Hx as (rx & -> & Hrx).
    apply list_elem_of_fmap in Hy as (ry & -> & Hry).
    destruct (Hfwd rx Hrx) as (i & _ & Hi & _).
    destruct (Hfwd ry Hry) as (j & _ & Hj & _).
    rewrite Hi, Hj in *. simpl in Heq. f_equal. lia.
  - intros i. unfold occupiedCells. rewrite list_elem_of_filter, elem_of_seqZ. split.
    + intros [Ht Hi].
      destruct (arrayGet p (Js.Num i)) as [[c|]|] eqn:Hc; try discriminate.
      destruct (Hbwd i c ltac:(lia) Hc) as (r & Hr & Hsl & _).
      apply list_elem_of_fmap. exists (r_slot r).
      split; [rewrite Hsl; simpl; lia | now apply list_elem_of_fmap_2].
    + intros Hi. apply list_elem_of_fmap in Hi as (n & -> & Hn).
      apply list_elem_of_fmap in Hn as (r & -> & Hr).
      destruct (Hfwd r Hr) as (j & Hj & Hsl & Hc).
      rewrite Hsl. simpl. replace (j + 1 - 1) with j by lia.
      rewrite Hc. split; [reflexivity | lia].
Qed.

Lemma mirrored_count p l : mirrored p l -> length (occupiedCells p) = length l.
Proof.
  intros Hm. rewrite (mirrored_occupied p l Hm). now rewrite !length_fmap.
Qed.

(** While the list has room, some cell holds [null]. *)
Lemma free_cell_exists p l :
  mirrored p l -> cellsDefined p ->
  Z.of_nat (length l) < TOTAL_SLOTS ->
  exists i, 0 <= i < TOTAL_SLOTS /\ arrayGet p (Js.Num i) = Some None.
Proof.
  intros Hm Hdef Hroom.
  destruct (decide (Exists (fun i => truthy (arrayGet p (Js.Num i)) <> true)
                           (seqZ 0 TOTAL_SLOTS))) as [Hex|Hall].
  - apply Exists_exists in Hex as (i & Hi & Ht).
    apply elem_of_seqZ in Hi. exists i. split; [lia|].
    destruct (Hdef i ltac:(lia)) as [[c|] Hc]; rewrite Hc in *; [|reflexivity].
    now contradiction Ht.
  - exfalso. apply not_Exists_Forall in Hall; [|intros i; apply _].
    pose proof (mirrored_count p l Hm) as Hcount. unfold occupiedCells in Hcount.
    assert (Heq : filter (fun i => truthy (arrayGet p (Js.Num i)) = true)
                         (seqZ 0 TOTAL_SLOTS) = seqZ 0 TOTAL_SLOTS).
    { generalize (seqZ 0 TOTAL_SLOTS) Hall. clear.
      induction l as [|x l IH]; intros Hall; [reflexivity|].
      apply Forall_cons in Hall as [Hx Hall]. rewrite filter_cons.
      simpl in Hx. destruct (decide _) as [|Hn]; [now rewrite IH|].
      now contradiction Hx. }
    rewrite Heq, length_seqZ in Hcount. unfold TOTAL_SLOTS in *. lia.
Qed.

Lemma cellsDefined_arraySet p k v : cellsDefined p -> cellsDefined (arraySet p k v).
Proof.
  intros Hdef i Hi. destruct (decide (k = Js.Num i)) as [->|Hne].
  - rewrite arrayGet_arraySet_eq. eauto.
  - rewrite arrayGet_arraySet_ne by assumption. now apply Hdef.
Qed.

Lemma mirrored_perm p l l' : l ≡ₚ l' -> mirrored p l -> mirrored p l'.
Proof.
  intros Hp (Hlen & Hsize & Hnd & Hfwd & Hbwd).
  split; [assumption|]. split; [now rewrite <- Hp|]. split; [now rewrite <- Hp|]. split.
  - intros r Hr. apply Hfwd. now rewrite Hp.
  - intros i c Hi Hc. destruct (Hbwd i c Hi Hc) as (r & Hr & H).
    exists r. split; [now rewrite <- Hp | exact H].
Qed.

Lemma sound_initial : sound initialState.
Proof.
  split; [apply mirrored_initial|]. split; [|intros H; now contradiction H].
  intros i Hi. exists None. now apply initial_cells_empty.
Qed.

(** In a state in good order with room in the list, a readable choice
    resolves to an error or to a cell of the SlotTable that holds no
    occupant: the index [-1] does not occur. *)
Lemma resolveSlot_sound s chosenSlot si :
  sound s -> Z.of_nat (length (arrayList s)) < TOTAL_SLOTS ->
  readableChoice chosenSlot ->
  resolveSlot s chosenSlot = inr si ->
  exists k, si = Js.Num k /\ 0 <= k < TOTAL_SLOTS
            /\ truthy (arrayGet (parkingSlots s) (Js.Num k)) = false.
Proof.
  intros (Hm & Hdef & _) Hroom Hread Hres.
  destruct (resolveSlot_index s chosenSlot si (proj1 Hm) Hread Hres)
    as [-> | Hk]; [|exact Hk].
  exfalso.
  destruct (free_cell_exists _ _ Hm Hdef Hroom) as (i & Hi & Hnull).
  unfold resolveSlot in Hres.
  destruct (String.eqb chosenSlot "auto").
  - injection Hres as Hres. unfold findIndexNull in Hres.
    destruct (findNullFrom_spec (parkingSlots s) (Z.to_nat (arr_length (parkingSlots s))) 0
                ltac:(lia)) as [[_ Hall] | (k & Hr & Hk & _)].
    + rewrite (proj1 Hm) in Hall. specialize (Hall i ltac:(unfold TOTAL_SLOTS in *; lia)).
      rewrite Hnull in Hall. discriminate.
    + rewrite Hr in Hres. injection Hres as ->. lia.
  - destruct (Js.parseInt chosenSlot) as [n|]; simpl in Hres.
    + destruct (n - 1 <? 0) eqn:H0; [discriminate|]. apply Z.ltb_ge in H0.
      destruct (TOTAL_SLOTS <=? n - 1); [discriminate|]. simpl in Hres.
      destruct (truthy _); [discriminate|]. injection Hres as Hres. lia.
    + destruct (truthy _); discriminate.
Qed.

Lemma insert_preserves_sound e plate chosenSlot s :
  readableChoice chosenSlot -> sound s ->
  sound (snd (insertReservation e plate chosenSlot s)).
Proof.
  intros Hread Hs.
  destruct (decide (validPlate plate)) as [Hv|Hv];
    [|now rewrite insert_invalid].
  destruct (decide (plateInSystem (Js.trim plate) s)) as [Hd|Hd];
    [now rewrite insert_duplicate|].
  rewrite insert_accepted by assumption. cbv zeta.
  pose proof Hs as (Hm & Hdef & Hwait).
  destruct (TOTAL_SLOTS <=? _) eqn:Hfull.
  - apply Z.leb_le in Hfull. split; [exact Hm|]. split; [exact Hdef|].
    intros _. cbn [snd arrayList]. pose proof (proj1 (proj2 Hm)). lia.
  - apply Z.leb_gt in Hfull.
    destruct (resolveSlot s chosenSlot) as [err|si] eqn:Hres; [exact Hs|].
    destruct (resolveSlot_sound s chosenSlot si Hs Hfull Hread Hres)
      as (k & -> & Hk & Hfree).
    simpl Js.strictEq.
    destruct (k =? -1) eqn:Hk1; [apply Z.eqb_eq in Hk1; lia|].
    cbn [snd]. split; [|split].
    + apply (mirrored_add _ _ k
               (mkReservation (Js.trim plate) (Js.Num (k + 1)) (nowString e) (mintId e)));
        auto.
    + now apply cellsDefined_arraySet.
    + cbn [queue arrayList]. intros Hq. specialize (Hwait Hq). lia.
Qed.

Lemma delete_preserves_sound e id s :
  sound s -> sound (snd (deleteReservation e id s)).
Proof.
  intros (Hm & Hdef & Hwait).
  split; [now apply delete_preserves_mirrored|].
  unfold deleteReservation.
  destruct (list_find _ _) as [[idx r]|] eqn:Hfind; [|now split].
  apply list_find_Some in Hfind as (Hidx & _).
  pose proof (length_delete (arrayList s) idx (ex_intro _ r Hidx)) as Hdel.
  apply lookup_lt_Some in Hidx.
  destruct (queue s) as [|next rest] eqn:Hq; cbn [snd parkingSlots arrayList queue].
  - split; [now apply cellsDefined_arraySet|]. intros H; now contradiction H.
  - split; [now do 2 apply cellsDefined_arraySet|]. intros _.
    rewrite length_app. simpl. specialize (Hwait ltac:(discriminate)). lia.
Qed.

Lemma perform_preserves_sound s a :
  pageAction a -> sound s -> sound (perform s a).
Proof.
  intros Ha Hs. destruct a as [[e plate chosenSlot | e id] | e confirmed i | |]; simpl.
  - apply insert_preserves_sound; [|assumption]. now apply slotOptions_readable.
  - now apply delete_preserves_sound.
  - unfold showSlotDetails.
    destruct (arrayGet _ _) as [[res|]|]; [|assumption..].
    destruct confirmed; [now apply delete_preserves_sound | assumption].
  - destruct Hs as (Hm & Hdef & Hwait). split; [|split]; cbn [sortBySlot parkingSlots arrayList queue].
    + apply (mirrored_perm _ (arrayList s)); [|assumption].
      symmetry. apply arraySort_perm.
    + assumption.
    + intros Hq. rewrite (arraySort_perm bySlot (arrayList s)). now apply Hwait.
  - destruct Hs as (Hm & Hdef & Hwait). split; [|split]; cbn [traverseReverse parkingSlots arrayList queue].
    + apply (mirrored_perm _ (arrayList s)); [|assumption]. apply Permutation_rev.
    + assumption.
    + intros Hq. rewrite length_rev. now apply Hwait.
Qed.

Lemma session_sound actions :
  Forall pageAction actions -> sound (session actions initialState).
Proof.
  assert (H : forall s, Forall pageAction actions -> sound s ->
                        sound (session actions s)).
  { induction actions as [|a actions IH]; intros s Ha Hs; [assumption|].
    apply Forall_cons in Ha as [Ha Has]. cbn [session fold_left].
    apply IH; [assumption|]. now apply perform_preserves_sound. }
  intros Ha. apply H; [assumption | apply sound_initial].
Qed.

End Sessions.

(** ** What every action keeps *)

Section Kept.

(** The shapes of the state an insert returns. *)
Lemma insert_cases e plate chosenSlot s :
  let s' := snd (insertReservation e plate chosenSlot s) in
  let p := Js.trim plate in
  s' = s
  \/ (~ plateInSystem p s
      /\ s' = mkState (parkingSlots s) (arrayList s)
                      (queue s ++ [mkOccupant p (nowString e) (mintId e)]))
  \/ (~ plateInSystem p s
      /\ Z.of_nat (length (arrayList s)) < TOTAL_SLOTS
      /\ exists k, s' = mkState (arraySet (parkingSlots s) k
                                   (Some (mkOccupant p (nowString e) (mintId e))))
                                (arrayList s ++
                                 [mkReservation p (Js.add k (Js.Num 1))
                                                (nowString e) (mintId e)])
                                (queue s)).
Proof.
  cbv zeta.
  destruct (decide (validPlate plate)) as [Hv|Hv];
    [|left; now rewrite insert_invalid].
  destruct (decide (plateInSystem (Js.trim plate) s)) as [Hd|Hd];
    [left; now rewrite insert_duplicate|].
  rewrite insert_accepted by assumption. cbv zeta.
  destruct (TOTAL_SLOTS <=? _) eqn:Hfull; [right; left; now split|].
  apply Z.leb_gt in Hfull.
  destruct (resolveSlot s chosenSlot) as [err|k]; [now left|].
  destruct (Js.strictEq _ _); [right; left; now split|].
  right; right. split; [assumption|]. split; [assumption|]. now exists k.
Qed.

(** The shapes of the state a delete returns. *)
Lemma delete_cases e id s :
  let s' := snd (deleteReservation e id s) in
  s' = s
  \/ exists idx r, arrayList s !! idx = Some r /\ r_id r = id
     /\ ((queue s = []
          /\ s' = mkState (arraySet (parkingSlots s) (Js.sub (r_slot r) (Js.Num 1)) None)
                          (delete idx (arrayList s)) [])
         \/ exists next rest, queue s = next :: rest
            /\ s' = mkState
                      (arraySet (arraySet (parkingSlots s) (Js.sub (r_slot r) (Js.Num 1)) None)
                                (Js.sub (r_slot r) (Js.Num 1))
                                (Some (mkOccupant (o_plate next) (nowString e) (mintId e))))
                      (delete idx (arrayList s) ++
                       [mkReservation (o_plate next) (r_slot r) (nowString e) (mintId e)])
                      rest).
Proof.
  cbv zeta. unfold deleteReservation.
  destruct (list_find _ _) as [[idx r]|] eqn:Hfind; [|now left].
  apply list_find_Some in Hfind as (Hidx & Hid & _).
  right. exists idx, r. split; [assumption|]. split; [assumption|].
  destruct (queue s) as [|next rest]; [left; now split|].
  right. exists next, rest. now split.
Qed.

Lemma perform_length_bound s a :
  Z.of_nat (length (arrayList s)) <= TOTAL_SLOTS ->
  Z.of_nat (length (arrayList (perform s a))) <= TOTAL_SLOTS.
Proof.
  intros Hs.
  assert (Hdel : forall e id,
             Z.of_nat (length (arrayList (snd (deleteReservation e id s)))) <= TOTAL_SLOTS).
  { intros e id.
    destruct (delete_cases e id s) as [-> | (idx & r & Hidx & _ & Hcase)]; [assumption|].
    pose proof (length_delete (arrayList s) idx (ex_intro _ r Hidx)) as Hdel.
    apply lookup_lt_Some in Hidx.
    destruct Hcase as [[_ ->] | (next & rest & _ & ->)]; cbn [arrayList]; [lia|].
    rewrite length_app. simpl. lia. }
  destruct a as [[e plate chosenSlot | e id] | e confirmed i | |]; simpl.
  - destruct (insert_cases e plate chosenSlot s) as [-> | [[_ ->] | (_ & Hroom & k & ->)]];
      cbn [arrayList]; [assumption..|].
    rewrite length_app. simpl. lia.
  - apply Hdel.
  - unfold showSlotDetails.
    destruct (arrayGet _ _) as [[res|]|]; [|assumption..].
    destruct confirmed; [apply Hdel | assumption].
  - now rewrite (arraySort_perm bySlot (arrayList s)).
  - now rewrite length_rev.
Qed.

Lemma session_length_le (actions : list Action) :
  Z.of_nat (length (arrayList (session actions initialState))) <= TOTAL_SLOTS.
Proof.
  assert (H : forall s, Z.of_nat (length (arrayList s)) <= TOTAL_SLOTS ->
                        Z.of_nat (length (arrayList (session actions s))) <= TOTAL_SLOTS).
  { induction actions as [|a actions IH]; intros s Hs; [assumption|].
    cbn [session fold_left]. apply IH. now apply perform_length_bound. }
  apply H. simpl. unfold TOTAL_SLOTS. lia.
Qed.

(** X8.  Whatever is typed, chosen or clicked, in whatever order,
    [arrayList] never holds more than [TOTAL_SLOTS] reservations. *)
Theorem session_length_bound (actions : list Action) :
  Z.of_nat (length (arrayList (session actions initialState))) <= TOTAL_SLOTS.
Proof. apply session_length_le. Qed.

Lemma plateInSystem_platesOf plate s :
  plateInSystem plate s <-> Js.toLowerCase plate ∈ platesOf s.
Proof.
  unfold plateInSystem, platesOf.
  rewrite elem_of_app, !list_elem_of_fmap, !Exists_exists.
  split; (intros [(x & H1 & H2) | (x & H1 & H2)]; [left | right]); exists x; split;
    congruence || assumption.
Qed.

Lemma perform_plates_distinct s a :
  NoDup (platesOf s) -> NoDup (platesOf (perform s a)).
Proof.
  intros Hs.
  assert (Hdel : forall e id, NoDup (platesOf (snd (deleteReservation e id s)))).
  { intros e id.
    destruct (delete_cases e id s) as [-> | (idx & r & Hidx & _ & Hcase)]; [assumption|].
    apply (sublist_NoDup _ (platesOf s)); [assumption|].
    destruct Hcase as [[Hq ->] | (next & rest & Hq & ->)];
      unfold platesOf; cbn [arrayList queue]; rewrite Hq.
    - apply sublist_app; [|reflexivity]. apply fmap_sublist, sublist_delete.
    - rewrite fmap_app, <- app_assoc. simpl.
      apply sublist_app; [|reflexivity]. apply fmap_sublist, sublist_delete. }
  destruct a as [[e plate chosenSlot | e id] | e confirmed i | |]; simpl.
  - destruct (insert_cases e plate chosenSlot s) as [-> | [[Hd ->] | (Hd & _ & k & ->)]];
      [assumption| |]; rewrite plateInSystem_platesOf in Hd;
      unfold platesOf in *; cbn [arrayList queue r_plate o_plate].
    + rewrite fmap_app, app_assoc. simpl.
      apply NoDup_app. split; [assumption|]. split; [|apply NoDup_singleton].
      intros x Hx Hx'. apply list_elem_of_singleton in Hx'. now subst x.
    + rewrite fmap_app. simpl.
      rewrite <- app_assoc. simpl.
      rewrite <- Permutation_middle. apply NoDup_cons. now split.
  - apply Hdel.
  - unfold showSlotDetails.
    destruct (arrayGet _ _) as [[res|]|]; [|assumption..].
    destruct confirmed; [apply Hdel | assumption].
  - unfold platesOf in *. cbn [sortBySlot arrayList queue].
    now rewrite (arraySort_perm bySlot (arrayList s)).
  - unfold platesOf in *. cbn [traverseReverse arrayList queue].
    now rewrite <- (Permutation_rev (arrayList s)).
Qed.

(** X9.  No plate is in the system twice: along every session, whatever is
    typed, chosen or clicked, the plates of [arrayList] and of [queue]
    together are pairwise different, letter case set aside. *)
Theorem session_plates_distinct (actions : list Action) :
  NoDup (platesOf (session actions initialState)).
Proof.
  assert (H : forall s, NoDup (platesOf s) -> NoDup (platesOf (session actions s))).
  { induction actions as [|a actions IH]; intros s Hs; [assumption|].
    cbn [session fold_left]. apply IH. now apply perform_plates_distinct. }
  apply H. constructor.
Qed.

Lemma perform_ids_distinct s a :
  match mintedBy a with
  | Some id => id ∉ (r_id <$> arrayList s)
  | None => True
  end ->
  idsDistinct s -> idsDistinct (perform s a).
Proof.
  unfold idsDistinct. intros Hfresh Hs.
  assert (Hdel : forall e id, mintId e ∉ (r_id <$> arrayList s) ->
             NoDup (r_id <$> arrayList (snd (deleteReservation e id s)))).
  { intros e id Hf.
    destruct (delete_cases e id s) as [-> | (idx & r & Hidx & _ & Hcase)]; [assumption|].
    assert (Hsub : (r_id <$> delete idx (arrayList s)) `sublist_of` (r_id <$> arrayList s))
      by apply fmap_sublist, sublist_delete.
    destruct Hcase as [[_ ->] | (next & rest & _ & ->)]; cbn [arrayList].
    - now apply (sublist_NoDup _ _ Hs).
    - rewrite fmap_app. apply NoDup_app.
      split; [now apply (sublist_NoDup _ _ Hs)|]. split; [|apply NoDup_singleton].
      intros x Hx Hx'. simpl in Hx'. apply list_elem_of_singleton in Hx'. subst x.
      apply Hf. eapply elem_of_sublist; eassumption. }
  destruct a as [[e plate chosenSlot | e id] | e confirmed i | |]; simpl in *.
  - destruct (insert_cases e plate chosenSlot s) as [-> | [[_ ->] | (_ & _ & k & ->)]];
      cbn [arrayList]; [assumption..|].
    rewrite fmap_app. apply NoDup_app. split; [assumption|]. split; [|apply NoDup_singleton].
    intros x Hx Hx'. simpl in Hx'. apply list_elem_of_singleton in Hx'. now subst x.
  - now apply Hdel.
  - unfold showSlotDetails.
    destruct (arrayGet _ _) as [[res|]|]; [|assumption..].
    destruct confirmed; [now apply Hdel | assumption].
  - now rewrite (arraySort_perm bySlot (arrayList s)).
  - now rewrite <- (Permutation_rev (arrayList s)).
Qed.

Lemma session_ids_distinct_from actions : forall s,
  mintsFresh actions s -> idsDistinct s -> idsDistinct (session actions s).
Proof.
  induction actions as [|a actions IH]; intros s Hf Hs; [assumption|].
  destruct Hf as [Ha Hf]. cbn [session fold_left].
  apply IH; [assumption|]. now apply perform_ids_distinct.
Qed.

(** X10.  The ids stay distinct as long as the clock and the random source
    give each call an id that no reservation carries at that time: the
    engine never copies an id (a promoted request gets the id minted by the
    delete, not the one it had in the queue). *)
Theorem session_ids_distinct (actions : list Action) :
  mintsFresh actions initialState ->
  idsDistinct (session actions initialState).
Proof.
  intros Hf. apply session_ids_distinct_from; [assumption | constructor].
Qed.

End Kept.

(** ** The page in good order *)

Section Page.

(** X11.  On the page as it is drawn (slot choices taken from the dropdown,
    clicks on the tiles, the delete, sort and reverse buttons), every state
    reached from the initial one has at most [TOTAL_SLOTS] reservations and
    its occupied cells and its reservations in bijection. *)
Theorem session_consistent (actions : list Action) :
  Forall pageAction actions -> consistent (session actions initialState).
Proof.
  intros Ha. apply mirrored_consistent. now apply session_sound.
Qed.

Lemma tiles_count (s : State) (b : bool) (l : list Z) :
  length (filter (fun t => tile_occupied t = b) (renderTile s <$> l))
  = length (filter (fun i => truthy (arrayGet (parkingSlots s) (Js.Num i)) = b) l).
Proof.
  induction l as [|i l IH]; [reflexivity|].
  rewrite fmap_cons, !filter_cons. cbn [renderTile tile_occupied].
  destruct (decide _); simpl; now rewrite IH.
Qed.

Lemma filter_bool_split {A} (f : A -> bool) (l : list A) :
  (length (filter (fun x => f x = true) l) + length (filter (fun x => f x = false) l)
   = length l)%nat.
Proof.
  induction l as [|x l IH]; [reflexivity|].
  rewrite !filter_cons. destruct (f x); simpl; lia.
Qed.

(** X12.  The counters agree with the grid: on the page as it is drawn, the
    number [updateCounters] shows as reserved is the number of tiles
    [renderGrid] draws as occupied, and the number it shows as available is
    the number of tiles drawn as available. *)
Theorem session_counters_match_grid (actions : list Action) :
  Forall pageAction actions ->
  let s := session actions initialState in
  let tiles := fst (renderGrid s) in
  c_reserved (updateCounters s)
  = Z.of_nat (length (filter (fun t => tile_occupied t = true) tiles))
  /\ c_available (updateCounters s)
     = Z.of_nat (length (filter (fun t => tile_occupied t = false) tiles)).
Proof.
  intros Ha s tiles. destruct (session_sound actions Ha) as (Hm & _ & _).
  fold s in Hm. pose proof (mirrored_count _ _ Hm) as Hcount.
  unfold occupiedCells in Hcount.
  pose proof (filter_bool_split
                (fun i => truthy (arrayGet (parkingSlots s) (Js.Num i)))
                (seqZ 0 TOTAL_SLOTS)) as Hsplit.
  rewrite length_seqZ in Hsplit.
  unfold tiles, renderGrid, updateCounters; cbn [fst c_reserved c_available].
  rewrite !tiles_count. unfold TOTAL_SLOTS in *. lia.
Qed.

(** X13.  Nobody waits while a slot is free: on the page as it is drawn,
    whenever the queue holds a request every tile is occupied, the list is
    full and the button reads JOIN QUEUE. *)
Theorem session_nobody_waits (actions : list Action) :
  Forall pageAction actions ->
  let s := session actions initialState in
  queue s <> [] ->
  (forall i, 0 <= i < TOTAL_SLOTS -> cellOccupied s i)
  /\ Z.of_nat (length (arrayList s)) = TOTAL_SLOTS
  /\ queueMode s = true.
Proof.
  intros Ha s Hq. destruct (session_sound actions Ha) as (Hm & Hdef & Hwait).
  fold s in Hm, Hdef, Hwait. specialize (Hwait Hq).
  split; [|split; [assumption | unfold queueMode; apply Z.eqb_eq; lia]].
  intros i Hi. unfold cellOccupied, cell.
  destruct (arrayGet (parkingSlots s) (Js.Num i)) as [[c|]|] eqn:Hc; [eauto | exfalso..].
  all: pose proof (mirrored_count _ _ Hm) as Hcount; unfold occupiedCells in Hcount;
       assert (Hin : i ∈ seqZ 0 TOTAL_SLOTS) by (apply elem_of_seqZ; lia);
       assert (Hlt := length_filter_lt
                        (fun i => truthy (arrayGet (parkingSlots s) (Js.Num i)) = true)
                        (seqZ 0 TOTAL_SLOTS) i Hin);
       cbv beta in Hlt; rewrite Hc in Hlt; specialize (Hlt ltac:(discriminate));
       rewrite length_seqZ in Hlt; unfold TOTAL_SLOTS in *; lia.
Qed.

(** X14.  On the page as it is drawn, pressing the insert button with any
    option of the dropdown ends in one of five ways only: the plate is
    refused (blank or duplicate), the request is queued with the "Parking
    is full" dialog, the chosen slot is occupied, or a slot numbered within
    [1..TOTAL_SLOTS] whose cell held no occupant is reserved.  The silent
    enqueue ([slotIndex === -1]), [InvalidSlotError] and a reservation at
    slot NaN do not occur. *)
Theorem page_insert_outcomes (actions : list Action) (e : Env)
    (plate chosenSlot : string) :
  Forall pageAction actions ->
  chosenSlot ∈ slotOptions ->
  let s := session actions initialState in
  match fst (insertReservation e plate chosenSlot s) with
  | ValidationError | DuplicateError | Queued | SlotOccupiedError => True
  | Reserved (Js.Num k) _ _ => 1 <= k <= TOTAL_SLOTS /\ ~ cellOccupied s (k - 1)
  | Reserved Js.NaN _ _ | InvalidSlotError | QueuedNoSlot => False
  end.
Proof.
  intros Ha Hc s. pose proof (session_sound actions Ha) as Hs. fold s in Hs.
  destruct (decide (validPlate plate)) as [Hv|Hv];
    [|now rewrite insert_invalid].
  destruct (decide (plateInSystem (Js.trim plate) s)) as [Hd|Hd];
    [now rewrite insert_duplicate|].
  rewrite insert_accepted by assumption. cbv zeta.
  destruct (TOTAL_SLOTS <=? _) eqn:Hfull; [exact I|].
  apply Z.leb_gt in Hfull.
  destruct (resolveSlot s chosenSlot) as [err|si] eqn:Hres.
  - unfold slotOptions in Hc. apply elem_of_cons in Hc as [->|Hc]; [discriminate Hres|].
    apply list_elem_of_fmap in Hc as (i & -> & Hi). apply elem_of_seqZ in Hi.
    rewrite resolveSlot_option in Hres by lia.
    destruct (truthy _); [|discriminate]. now injection Hres as <-.
  - destruct (resolveSlot_sound s chosenSlot si Hs Hfull
                (slotOptions_readable _ Hc) Hres) as (k & -> & Hk & Hfree).
    simpl Js.strictEq.
    destruct (k =? -1) eqn:Hk1; [apply Z.eqb_eq in Hk1; lia|].
    cbn [fst Js.add]. split; [lia|].
    intros [c Hcell]. unfold cell in Hcell.
    replace (k + 1 - 1) with k in Hcell by lia. rewrite Hcell in Hfree. discriminate.
Qed.

(** X15.  The label of the button tells what pressing it does: along every
    session, for a valid plate that is not in the system, the button reads
    JOIN QUEUE exactly when the insert ends with the request queued behind
    the "Parking is full" dialog. *)
Theorem join_queue_label_is_right (actions : list Action) (e : Env)
    (plate chosenSlot : string) :
  let s := session actions initialState in
  validPlate plate ->
  ~ plateInSystem (Js.trim plate) s ->
  (queueMode s = true <-> fst (insertReservation e plate chosenSlot s) = Queued).
Proof.
  intros s Hv Hd. pose proof (session_length_le actions) as Hle. fold s in Hle.
  rewrite insert_accepted by assumption. cbv zeta. unfold queueMode.
  rewrite Z.eqb_eq.
  destruct (TOTAL_SLOTS <=? _) eqn:Hfull.
  - apply Z.leb_le in Hfull. split; [reflexivity | intros _; lia].
  - apply Z.leb_gt in Hfull. split; [lia|].
    destruct (resolveSlot s chosenSlot) as [err|si] eqn:Hres.
    + apply resolveSlot_error in Hres as [-> | ->]; discriminate.
    + destruct (Js.strictEq _ _); discriminate.
Qed.

(** Among records with distinct ids, each record is the first that carries
    its id. *)
Lemma distinct_ids_first s idx r :
  idsDistinct s -> arrayList s !! idx = Some r -> firstWithId (r_id r) s idx r.
Proof.
  intros Hnd Hidx. split; [assumption|]. split; [reflexivity|].
  intros j r' Hj Hlt Heq.
  assert (j = idx); [|lia].
  apply (NoDup_lookup (r_id <$> arrayList s) j idx (r_id r) Hnd).
  - now rewrite list_lookup_fmap, Hj; simpl; rewrite Heq.
  - now rewrite list_lookup_fmap, Hidx.
Qed.

(** X16.  A click on an occupied tile, once confirmed, deletes the
    reservation of that tile: on the page as it is drawn and with ids
    minted fresh, the occupant of cell [i] mirrors a reservation at slot
    [i + 1], and [showSlotDetails(i)] is the deletion of that very record;
    when the dialog is declined nothing changes. *)
Theorem tile_click_deletes_its_reservation (actions : list Action) (e : Env)
    (i : Z) (c : Occupant) :
  Forall pageAction actions ->
  mintsFresh actions initialState ->
  let s := session actions initialState in
  0 <= i < TOTAL_SLOTS ->
  cell s i = Some (Some c) ->
  exists idx r,
    arrayList s !! idx = Some r /\ r_slot r = Js.Num (i + 1) /\ occupantOf r = c
    /\ firstWithId (r_id r) s idx r
    /\ showSlotDetails e true i s = snd (deleteReservation e (r_id r) s)
    /\ showSlotDetails e false i s = s.
Proof.
  intros Ha Hf s Hi Hc.
  destruct (session_sound actions Ha) as ((_ & _ & _ & _ & Hbwd) & _ & _).
  pose proof (session_ids_distinct_from actions initialState Hf
                ltac:(constructor)) as Hids.
  fold s in Hbwd, Hids.
  destruct (Hbwd i c Hi Hc) as (r & Hr & Hsl & Hoc).
  apply list_elem_of_lookup_1 in Hr as [idx Hidx].
  exists idx, r. split; [assumption|]. split; [assumption|]. split; [now symmetry|].
  split; [now apply distinct_ids_first|].
  unfold showSlotDetails. unfold cell in Hc. rewrite Hc. subst c. now split.
Qed.

(** X17.  Requests join the queue at the back and leave it from the front:
    whatever the action, the queue it returns is the queue it was given,
    or that queue with one entry added at the back, or that queue without
    its head. *)
Theorem perform_keeps_queue_order (s : State) (a : Action) :
  queue (perform s a) = queue s
  \/ (exists x, queue (perform s a) = queue s ++ [x])
  \/ (exists x, queue s = x :: queue (perform s a)).
Proof.
  assert (Hdel : forall e id,
    queue (snd (deleteReservation e id s)) = queue s
    \/ (exists x, queue (snd (deleteReservation e id s)) = queue s ++ [x])
    \/ (exists x, queue s = x :: queue (snd (deleteReservation e id s)))).
  { intros e id.
    destruct (delete_cases e id s) as [-> | (idx & r & _ & _ & Hcase)]; [now left|].
    destruct Hcase as [[Hq ->] | (next & rest & Hq & ->)]; cbn [queue].
    - left. now rewrite Hq.
    - right; right. now exists next. }
  destruct a as [[e plate chosenSlot | e id] | e confirmed i | |]; simpl.
  - destruct (insert_cases e plate chosenSlot s) as [-> | [[_ ->] | (_ & _ & k & ->)]];
      cbn [queue]; [now left | right; left; eauto | now left].
  - apply Hdel.
  - unfold showSlotDetails.
    destruct (arrayGet _ _) as [[res|]|]; [|now left..].
    destruct confirmed; [apply Hdel | now left].
  - now left.
  - now left.
Qed.

End Page.

(** ** Sorting and reversing together *)

Section Reorder.

Lemma withSlot_none k l : k ∉ (r_slot <$> l) -> withSlot k l = [].
Proof.
  intros Hk. unfold withSlot.
  induction l as [|x l IH]; [reflexivity|].
  rewrite fmap_cons in Hk. apply not_elem_of_cons in Hk as [Hx Hl].
  rewrite filter_cons, decide_False by congruence. now apply IH.
Qed.

Lemma withSlot_short k l : NoDup (r_slot <$> l) -> (length (withSlot k l) <= 1)%nat.
Proof.
  induction l as [|x l IH]; intros Hnd; [simpl; lia|].
  rewrite fmap_cons in Hnd. apply NoDup_cons in Hnd as [Hx Hnd].
  destruct (decide (r_slot x = k)) as [<-|Hne].
  - rewrite withSlot_head, withSlot_none by assumption. simpl. lia.
  - rewrite withSlot_skip by assumption. now apply IH.
Qed.

(** With one record per slot, the records of a slot do not depend on the
    order of the list. *)
Lemma withSlot_perm k l l' :
  l ≡ₚ l' -> NoDup (r_slot <$> l) -> withSlot k l = withSlot k l'.
Proof.
  intros Hp Hnd.
  assert (Hf : withSlot k l ≡ₚ withSlot k l') by (unfold withSlot; now rewrite Hp).
  pose proof (withSlot_short k l Hnd) as Hlen.
  destruct (withSlot k l) as [|x [|y m]]; simpl in Hlen; [| |lia].
  - now apply Permutation_nil_l.
  - now apply Permutation_singleton_l.
Qed.

(** With one record per slot, sorting by slot gives the same list from
    every arrangement of the records. *)
Lemma arraySort_perm_eq l l' :
  l ≡ₚ l' -> numericSlots l -> NoDup (r_slot <$> l) ->
  arraySort bySlot l' = arraySort bySlot l.
Proof.
  intros Hp Hnum Hnd.
  assert (Hnum' : numericSlots l') by (unfold numericSlots in *; now rewrite <- Hp).
  apply sorted_stable_unique; [now apply arraySort_sorted..|].
  intros k. rewrite !arraySort_withSlot. symmetry. now apply withSlot_perm.
Qed.

(** X18.  Sorting forgets a reversal: when the reservations carry slot
    numbers, one per slot, [sortBySlot] after [traverseReverse] returns the
    same state as [sortBySlot] alone. *)
Theorem sortBySlot_after_reverse (s : State) :
  numericSlots (arrayList s) ->
  NoDup (r_slot <$> arrayList s) ->
  sortBySlot (traverseReverse s) = sortBySlot s.
Proof.
  intros Hnum Hnd. unfold sortBySlot, traverseReverse; cbn [parkingSlots arrayList queue].
  f_equal. apply arraySort_perm_eq; [apply Permutation_rev | assumption..].
Qed.

Lemma StronglySorted_rev {A} (R : relation A) (l : list A) :
  StronglySorted R l -> StronglySorted (flip R) (rev l).
Proof.
  induction 1 as [|x l Hs IH Hx]; [constructor|].
  simpl. apply StronglySorted_app_2; [|assumption|repeat constructor].
  intros a b Ha Hb. apply list_elem_of_singleton in Hb as ->.
  rewrite Forall_forall in Hx. apply Hx.
  apply list_elem_of_In. apply list_elem_of_In, in_rev in Ha. assumption.
Qed.

(** X19.  [traverseReverse] reverses and nothing more: applied twice it
    gives back the state; it leaves [parkingSlots] and [queue] as they are;
    and applied after [sortBySlot], on reservations that carry slot
    numbers, it lists the slot numbers in non-increasing order. *)
Theorem traverseReverse_reverses (s : State) :
  traverseReverse (traverseReverse s) = s
  /\ parkingSlots (traverseReverse s) = parkingSlots s
  /\ queue (traverseReverse s) = queue s
  /\ (numericSlots (arrayList s) ->
      StronglySorted (flip slotLe) (arrayList (traverseReverse (sortBySlot s)))).
Proof.
  split; [|split; [reflexivity | split; [reflexivity|]]].
  - destruct s as [p l q]. unfold traverseReverse; cbn [parkingSlots arrayList queue].
    now rewrite rev_involutive.
  - intros Hnum. cbn [traverseReverse sortBySlot arrayList].
    apply StronglySorted_rev. now apply arraySort_sorted.
Qed.

End Reorder.

(** ** The further theorems at work on the sample sessions *)

Lemma insert_blank_plate_refused_witness :
  Js.trim "  	 " = ""
  /\ insertReservation (envAt 4) "  	 " "7" lotOfThree = (ValidationError, lotOfThree).
Proof.
  assert (H : Js.trim "  	 " = "") by reflexivity.
  split; [exact H|].
  exact (proj2 (insert_blank_plate_refused (envAt 4) "  	 " "7" lotOfThree) H).
Defined.

Lemma delete_vacates_slot_witness :
  let id := mintId (envAt 1) in
  let r := mkReservation "ABC 123" (Js.Num 1) (nowString (envAt 1)) id in
  firstWithId id lotOfThree 0 r
  /\ r_slot r = Js.Num 1
  /\ queue lotOfThree = []
  /\ exists s',
      deleteReservation (envAt 9) id lotOfThree = (Deleted None, s')
      /\ arrayList s' = delete 0%nat (arrayList lotOfThree)
      /\ queue s' = []
      /\ cellEmpty s' (1 - 1)
      /\ (forall k, k <> Js.Num (1 - 1) ->
          arrayGet (parkingSlots s') k = arrayGet (parkingSlots lotOfThree) k).
Proof.
  intros id r.
  assert (Hf : firstWithId id lotOfThree 0 r).
  { split; [vm_compute; reflexivity|]. split; [reflexivity|]. intros j r' _ Hj. lia. }
  assert (Hs : r_slot r = Js.Num 1) by reflexivity.
  assert (Hq : queue lotOfThree = []) by reflexivity.
  split; [exact Hf|]. split; [exact Hs|]. split; [exact Hq|].
  exact (delete_vacates_slot (envAt 9) id lotOfThree 0 r 1 Hf Hs Hq).
Defined.

Lemma delete_twice_witness :
  idsDistinct fullLotQueued
  /\ mintId (envAt 30) <> mintId (envAt 2)
  /\ let s1 := snd (deleteReservation (envAt 30) (mintId (envAt 2)) fullLotQueued) in
     deleteReservation (envAt 31) (mintId (envAt 2)) s1 = (NotFound, s1).
Proof.
  assert (Hd : idsDistinct fullLotQueued) by by_evaluation.
  assert (Hm : mintId (envAt 30) <> mintId (envAt 2)) by by_evaluation.
  split; [exact Hd|]. split; [exact Hm|].
  exact (delete_twice (envAt 30) (envAt 31) (mintId (envAt 2)) fullLotQueued Hd Hm).
Defined.

Lemma dropdown_option_reserves_its_tile_witness :
  0 <= 6 < TOTAL_SLOTS
  /\ validPlate "New 1"
  /\ ~ plateInSystem (Js.trim "New 1") lotOfThree
  /\ Z.of_nat (length (arrayList lotOfThree)) < TOTAL_SLOTS
  /\ let option := Js.toString (Js.Num (6 + 1)) in
     option ∈ snd (renderGrid lotOfThree)
     /\ insertReservation (envAt 4) "New 1" option lotOfThree =
        if truthy (cell lotOfThree 6) then (SlotOccupiedError, lotOfThree)
        else
          (Reserved (Js.Num (6 + 1)) (mintId (envAt 4)) (nowString (envAt 4)),
           {| parkingSlots :=
                arraySet (parkingSlots lotOfThree) (Js.Num 6)
                  (Some (mkOccupant (Js.trim "New 1") (nowString (envAt 4)) (mintId (envAt 4))));
              arrayList :=
                arrayList lotOfThree ++
                [mkReservation (Js.trim "New 1") (Js.Num (6 + 1))
                   (nowString (envAt 4)) (mintId (envAt 4))];
              queue := queue lotOfThree |}).
Proof.
  assert (Hi : 0 <= 6 < TOTAL_SLOTS) by by_evaluation.
  assert (Hv : validPlate "New 1") by by_evaluation.
  assert (Hd : ~ plateInSystem (Js.trim "New 1") lotOfThree) by by_evaluation.
  assert (Hn : Z.of_nat (length (arrayList lotOfThree)) < TOTAL_SLOTS) by by_evaluation.
  split; [exact Hi|]. split; [exact Hv|]. split; [exact Hd|]. split; [exact Hn|].
  exact (dropdown_option_reserves_its_tile (envAt 4) "New 1" lotOfThree 6 Hi Hv Hd Hn).
Defined.

Lemma insert_then_delete_restores_witness :
  let s1 := snd (insertReservation (envAt 4) " New 1" "auto" lotOfThree) in
  insertReservation (envAt 4) " New 1" "auto" lotOfThree
  = (Reserved (Js.Num 4) (mintId (envAt 4)) (nowString (envAt 4)), s1)
  /\ queue lotOfThree = []
  /\ (mintId (envAt 4) ∉ (r_id <$> arrayList lotOfThree))
  /\ arrayGet (parkingSlots lotOfThree) (Js.sub (Js.Num 4) (Js.Num 1)) = Some None
  /\ TOTAL_SLOTS <= arr_length (parkingSlots lotOfThree)
  /\ deleteReservation (envAt 5) (mintId (envAt 4)) s1 = (Deleted None, lotOfThree).
Proof.
  intros s1.
  assert (Hi : insertReservation (envAt 4) " New 1" "auto" lotOfThree
               = (Reserved (Js.Num 4) (mintId (envAt 4)) (nowString (envAt 4)), s1))
    by (vm_compute; reflexivity).
  assert (Hq : queue lotOfThree = []) by reflexivity.
  assert (Hf : mintId (envAt 4) ∉ (r_id <$> arrayList lotOfThree)) by by_evaluation.
  assert (Hc : arrayGet (parkingSlots lotOfThree) (Js.sub (Js.Num 4) (Js.Num 1)) = Some None)
    by (vm_compute; reflexivity).
  assert (Hl : TOTAL_SLOTS <= arr_length (parkingSlots lotOfThree)) by by_evaluation.
  split; [exact Hi|]. split; [exact Hq|]. split; [exact Hf|]. split; [exact Hc|].
  split; [exact Hl|].
  exact (insert_then_delete_restores (envAt 4) (envAt 5) " New 1" "auto" lotOfThree s1
           (Js.Num 4) (mintId (envAt 4)) (nowString (envAt 4)) Hi Hq Hf Hc Hl).
Defined.

Lemma search_finds_new_reservation_witness :
  let s1 := snd (insertReservation (envAt 4) " New 1" "auto" lotOfThree) in
  let r := mkReservation (Js.trim " New 1") (Js.Num 4) (nowString (envAt 4)) (mintId (envAt 4)) in
  insertReservation (envAt 4) " New 1" "auto" lotOfThree
  = (Reserved (Js.Num 4) (mintId (envAt 4)) (nowString (envAt 4)), s1)
  /\ r ∈ resultSet (search " New 1" s1)
  /\ r ∈ resultSet (search (Js.toString (Js.Num 4)) s1).
Proof.
  intros s1 r.
  assert (Hi : insertReservation (envAt 4) " New 1" "auto" lotOfThree
               = (Reserved (Js.Num 4) (mintId (envAt 4)) (nowString (envAt 4)), s1))
    by (vm_compute; reflexivity).
  split; [exact Hi|].
  exact (search_finds_new_reservation (envAt 4) " New 1" "auto" lotOfThree s1
           (Js.Num 4) (mintId (envAt 4)) (nowString (envAt 4)) Hi).
Defined.

Lemma session_ids_distinct_witness :
  mintsFresh fullSession initialState
  /\ idsDistinct (session fullSession initialState).
Proof.
  assert (H : mintsFresh fullSession initialState) by by_evaluation.
  split; [exact H|]. exact (session_ids_distinct fullSession H).
Defined.

Lemma session_consistent_witness :
  Forall pageAction sampleSession /\ consistent (session sampleSession initialState).
Proof.
  assert (H : Forall pageAction sampleSession) by by_evaluation.
  split; [exact H|]. exact (session_consistent sampleSession H).
Defined.

Lemma session_counters_match_grid_witness :
  Forall pageAction sampleSession
  /\ let s := session sampleSession initialState in
     let tiles := fst (renderGrid s) in
     c_reserved (updateCounters s)
     = Z.of_nat (length (filter (fun t => tile_occupied t = true) tiles))
     /\ c_available (updateCounters s)
        = Z.of_nat (length (filter (fun t => tile_occupied t = false) tiles)).
Proof.
  assert (H : Forall pageAction sampleSession) by by_evaluation.
  split; [exact H|]. exact (session_counters_match_grid sampleSession H).
Defined.

Lemma session_nobody_waits_witness :
  Forall pageAction fullSession
  /\ queue (session fullSession initialState) <> []
  /\ (forall i, 0 <= i < TOTAL_SLOTS -> cellOccupied (session fullSession initialState) i)
  /\ Z.of_nat (length (arrayList (session fullSession initialState))) = TOTAL_SLOTS
  /\ queueMode (session fullSession initialState) = true.
Proof.
  assert (H : Forall pageAction fullSession) by by_evaluation.
  assert (Hq : queue (session fullSession initialState) <> []) by by_evaluation.
  split; [exact H|]. split; [exact Hq|].
  exact (session_nobody_waits fullSession H Hq).
Defined.

Lemma page_insert_outcomes_witness :
  Forall pageAction sampleSession
  /\ "7" ∈ slotOptions
  /\ match fst (insertReservation (envAt 9) "New 1" "7"
                  (session sampleSession initialState)) with
     | ValidationError | DuplicateError | Queued | SlotOccupiedError => True
     | Reserved (Js.Num k) _ _ =>
         1 <= k <= TOTAL_SLOTS
         /\ ~ cellOccupied (session sampleSession initialState) (k - 1)
     | Reserved Js.NaN _ _ | InvalidSlotError | QueuedNoSlot => False
     end.
Proof.
  assert (H : Forall pageAction sampleSession) by by_evaluation.
  assert (Hc : "7" ∈ slotOptions) by by_evaluation.
  split; [exact H|]. split; [exact Hc|].
  exact (page_insert_outcomes sampleSession (envAt 9) "New 1" "7" H Hc).
Defined.

Lemma join_queue_label_is_right_witness :
  validPlate "late-1"
  /\ ~ plateInSystem (Js.trim "late-1") (session fullSession initialState)
  /\ (queueMode (session fullSession initialState) = true
      <-> fst (insertReservation (envAt 40) "late-1" "auto"
                 (session fullSession initialState)) = Queued).
Proof.
  assert (Hv : validPlate "late-1") by by_evaluation.
  assert (Hd : ~ plateInSystem (Js.trim "late-1") (session fullSession initialState))
    by by_evaluation.
  split; [exact Hv|]. split; [exact Hd|].
  exact (join_queue_label_is_right fullSession (envAt 40) "late-1" "auto" Hv Hd).
Defined.

Lemma tile_click_deletes_its_reservation_witness :
  let s := session sampleSession initialState in
  let c := mkOccupant "xyz789" (nowString (envAt 2)) (mintId (envAt 2)) in
  Forall pageAction sampleSession
  /\ mintsFresh sampleSession initialState
  /\ 0 <= 2 < TOTAL_SLOTS
  /\ cell s 2 = Some (Some c)
  /\ exists idx r,
      arrayList s !! idx = Some r /\ r_slot r = Js.Num (2 + 1) /\ occupantOf r = c
      /\ firstWithId (r_id r) s idx r
      /\ showSlotDetails (envAt 9) true 2 s = snd (deleteReservation (envAt 9) (r_id r) s)
      /\ showSlotDetails (envAt 9) false 2 s = s.
Proof.
  intros s c.
  assert (Ha : Forall pageAction sampleSession) by by_evaluation.
  assert (Hf : mintsFresh sampleSession initialState) by by_evaluation.
  assert (Hi : 0 <= 2 < TOTAL_SLOTS) by by_evaluation.
  assert (Hc : cell s 2 = Some (Some c)) by (vm_compute; reflexivity).
  split; [exact Ha|]. split; [exact Hf|]. split; [exact Hi|]. split; [exact Hc|].
  exact (tile_click_deletes_its_reservation sampleSession (envAt 9) 2 c Ha Hf Hi Hc).
Defined.

Lemma sortBySlot_after_reverse_witness :
  numericSlots (arrayList lotOfThree)
  /\ NoDup (r_slot <$> arrayList lotOfThree)
  /\ sortBySlot (traverseReverse lotOfThree) = sortBySlot lotOfThree.
Proof.
  assert (Hn : numericSlots (arrayList lotOfThree)) by by_evaluation.
  assert (Hd : NoDup (r_slot <$> arrayList lotOfThree)) by by_evaluation.
  split; [exact Hn|]. split; [exact Hd|].
  exact (sortBySlot_after_reverse lotOfThree Hn Hd).
Defined.

Lemma traverseReverse_reverses_witness :
  numericSlots (arrayList lotOfThree)
  /\ StronglySorted (flip slotLe) (arrayList (traverseReverse (sortBySlot lotOfThree))).
Proof.
  assert (Hn : numericSlots (arrayList lotOfThree)) by by_evaluation.
  split; [exact Hn|].
  exact (proj2 (proj2 (proj2 (traverseReverse_reverses lotOfThree))) Hn).
Defined.

(** ** More worked examples *)

(** The dropdown of the page. *)
Example slotOptions_ex :
  slotOptions = ["auto"; "1"; "2"; "3"; "4"; "5"; "6"; "7"; "8"; "9"; "10";
                 "11"; "12"; "13"; "14"; "15"; "16"; "17"; "18"; "19"; "20"].
Proof. reflexivity. Qed.

(** The sample session ends with the slots listed 3, 2, 1. *)
Example sampleSession_slots :
  r_slot <$> arrayList (session sampleSession initialState)
  = [Js.Num 3; Js.Num 2; Js.Num 1].
Proof. vm_compute; reflexivity. Qed.

(** When two reservations carry the same id (two inserts in one
    millisecond that draw the same random number), a confirmed click on the
    tile of the second deletes the first: tile 1 keeps its occupant and
    tile 0 is vacated. *)
Example tile_click_with_shared_id :
  let s := run [Insert (envAt 1) "AAA" "auto"; Insert (envAt 1) "BBB" "auto"] initialState in
  let s' := showSlotDetails (envAt 2) true 1 s in
  r_plate <$> arrayList s' = ["BBB"]
  /\ cell s' 0 = Some None
  /\ cellOccupied s' 1.
Proof. repeat split; [vm_compute; reflexivity.. | eexists; vm_compute; reflexivity]. Qed.
